(** * dice_tracker: a shallow embedding of [dice_tracker.py]

    The program is a [cmd.Cmd] application that tallies integer outcomes
    within an inclusive range, prints statistics and saves/loads the tally
    as JSON.  Python integers are unbounded, so they are [Z]; the tally
    ([defaultdict(int)]) is a [gmap Z Z]; the methods of [App] are written
    in a state-and-exception monad over the application object, the disk
    and the console. *)

From Stdlib Require Import ZArith QArith Qround Ascii String Decimal DecimalString DecimalZ.
From stdpp Require Import base option list list_numbers sorting strings gmap fin_maps.

Local Open Scope string_scope.
Local Open Scope Z_scope.

(** ** Text: the fragments of [str] and [int] the program uses *)

Module Text.

(** [str(n)] for an integer [n]: decimal digits, ["-"] for negatives. *)
Definition str (n : Z) : string := NilZero.string_of_int (Z.to_int n).

(** ASCII white space as [str.isspace] sees it: tab, line feed, vertical
    tab, form feed, carriage return, the four separators 28..31, space. *)
Definition isspace (c : ascii) : bool :=
  let n := nat_of_ascii c in
  ((9 <=? n) && (n <=? 13) || (28 <=? n) && (n <=? 32))%nat.

Fixpoint lstrip (s : string) : string :=
  match s with
  | String c r => if isspace c then lstrip r else s
  | EmptyString => EmptyString
  end.

Fixpoint rstrip (s : string) : string :=
  match s with
  | String c r =>
      match rstrip r with
      | EmptyString => if isspace c then EmptyString else String c EmptyString
      | r' => String c r'
      end
  | EmptyString => EmptyString
  end.

(** [s.strip()] *)
Definition strip (s : string) : string := rstrip (lstrip s).

(** [s.split()]: maximal runs of non-space characters; [tok] is the run
    being read. *)
Fixpoint split_from (tok s : string) : list string :=
  match s with
  | String c r =>
      if isspace c
      then match tok with
           | EmptyString => split_from EmptyString r
           | _ => tok :: split_from EmptyString r
           end
      else split_from (tok +:+ String c EmptyString) r
  | EmptyString =>
      match tok with EmptyString => [] | _ => [tok] end
  end.

Definition split (s : string) : list string := split_from EmptyString s.

(** Underscores of an integer literal: one at a time, between two other
    characters.  [after_char] says that the previous character exists and
    is not an underscore. *)
Fixpoint drop_underscores (after_char : bool) (s : string) : option string :=
  match s with
  | String c r =>
      if Ascii.eqb c "_"
      then if after_char then drop_underscores false r else None
      else String c <$> drop_underscores true r
  | EmptyString => if after_char then Some EmptyString else None
  end.

Definition digits (s : string) : option Z :=
  d ← drop_underscores false s;
  Z.of_uint <$> NilZero.uint_of_string d.

(** [int(s)] in base 10 on ASCII text: surrounding white space, one
    optional sign, decimal digits with single underscores between them.
    [None] stands for [ValueError]. *)
Definition int (s : string) : option Z :=
  match strip s with
  | String c r =>
      if Ascii.eqb c "-" then Z.opp <$> digits r
      else if Ascii.eqb c "+" then digits r
      else digits (String c r)
  | EmptyString => None
  end.

End Text.

(** ** Exceptions, console, disk *)

(** The exceptions that can leave a method of [App].  [SystemExit] is what
    [sys.exit] raises. *)
Inductive exn :=
  | ValueError
  | ZeroDivisionError
  | OSError
  | AttributeError
  | SystemExit (code : Z).

(** What the program writes.  Lines holding a float are kept structured:
    the number is carried as the exact rational the Python expression
    denotes, the label is the text before it. *)
Inductive line :=
  | Out (text : string)                      (* print(text) *)
  | Err (text : string)                      (* self.perror(text) *)
  | Err_args (token : string)                (* perror of the ValueError of int(token) *)
  | Out_row (key val : Z) (percent : Q)      (* f"{key:3d} | {val:11d} | {percent}" *)
  | Out_stat (label : string) (value : Q).   (* f"{label}: {value}" *)

(** What [json.loads] makes of a file's text.  An object is kept as its
    members in file order, duplicates included; the counts are integers. *)
Inductive document :=
  | Malformed                                (* not JSON: JSONDecodeError, a ValueError *)
  | Not_an_object                            (* JSON, but a value without [.items()] *)
  | Object (members : list (string * Z)).

Record disk := {
  files : gmap string document;
  unreadable : gset string;                  (* open(name, "r") fails *)
  unwritable : gset string                   (* open(name, "w") fails *)
}.

Record App := {
  range_low : Z;
  range_high : Z;
  tracker : gmap Z Z
}.

Record world := {
  self : App;
  storage : disk;
  console : list line
}.

(** ** The monad: state that survives an exception *)

Definition M (A : Type) : Type := world → (exn + A) * world.

#[global] Instance M_ret : MRet M := λ A a w, (inr a, w).
#[global] Instance M_bind : MBind M := λ A B k m w,
  match m w with
  | (inr a, w') => k a w'
  | (inl e, w') => (inl e, w')
  end.
#[global] Instance M_fmap : FMap M := λ A B f m w,
  match m w with
  | (inr a, w') => (inr (f a), w')
  | (inl e, w') => (inl e, w')
  end.

Definition raise {A} (e : exn) : M A := λ w, (inl e, w).

(** [try: body except ValueError: handler] *)
Definition try_ValueError {A} (body : M A) (handler : M A) : M A := λ w,
  match body w with
  | (inl ValueError, w') => handler w'
  | r => r
  end.

Definition get_self : M App := λ w, (inr (self w), w).
Definition put_self (a : App) : M unit := λ w,
  (inr (), {| self := a; storage := storage w; console := console w |}).
Definition emit (l : line) : M unit := λ w,
  (inr (), {| self := self w; storage := storage w; console := console w ++ [l] |}).
Definition get_storage : M disk := λ w, (inr (storage w), w).
Definition put_storage (d : disk) : M unit := λ w,
  (inr (), {| self := self w; storage := d; console := console w |}).

Definition set_range_low (z : Z) : M unit :=
  a ← get_self;
  put_self {| range_low := z; range_high := range_high a; tracker := tracker a |}.
Definition set_range_high (z : Z) : M unit :=
  a ← get_self;
  put_self {| range_low := range_low a; range_high := z; tracker := tracker a |}.
Definition set_tracker (t : gmap Z Z) : M unit :=
  a ← get_self;
  put_self {| range_low := range_low a; range_high := range_high a; tracker := t |}.

(** [for x in l: body(x)] *)
Fixpoint for_in {A} (l : list A) (body : A → M unit) : M unit :=
  match l with
  | [] => mret ()
  | x :: l' => body x ;; for_in l' body
  end.

(** A loop that updates a local variable. *)
Fixpoint for_acc {A S} (l : list A) (s : S) (body : A → S → M S) : M S :=
  match l with
  | [] => mret s
  | x :: l' => s' ← body x s; for_acc l' s' body
  end.

(** [[f(x) for x in l]] where [f] may raise [ValueError]. *)
Fixpoint comprehension {A B} (f : A → option B) (l : list A) : M (list B) :=
  match l with
  | [] => mret []
  | x :: l' =>
      match f x with
      | Some y => ys ← comprehension f l'; mret (y :: ys)
      | None => raise ValueError
      end
  end.

(** [range(a, b)] *)
Definition range (a b : Z) : list Z := seqZ a (b - a).

(** [a / b] on integers; the quotient is the exact rational. *)
Definition truediv (a b : Z) : M Q :=
  if decide (b = 0) then raise ZeroDivisionError
  else mret (inject_Z a / inject_Z b)%Q.

(** [round(x, 2)]: to the nearest hundredth, a tie to the even one. *)
Definition round_half_even (q : Q) : Z :=
  let f := Qfloor q in
  match (q - inject_Z f ?= 1 # 2)%Q with
  | Lt => f
  | Gt => f + 1
  | Eq => if Z.even f then f else f + 1
  end.
Definition round2 (q : Q) : Q := Qred (inject_Z (round_half_even (q * 100)) / 100).

(** ** The application *)

Definition _get_range_err (num low high : Z) : string :=
  "Number " +:+ Text.str num +:+ " no in range [" +:+ Text.str low +:+ ", "
    +:+ Text.str high +:+ "]".

Definition perror (text : string) : M unit := emit (Err text).
Definition print (text : string) : M unit := emit (Out text).

(** The body of the loop of [_set_range]: [if i not in self.tracker:
    self.tracker[i] = 0]. *)
Definition ensure_key (i : Z) : M unit :=
  a ← get_self;
  if decide (is_Some (tracker a !! i)) then mret ()
  else set_tracker (<[i := 0]> (tracker a)).

Definition _set_range (low high : Z) : M unit :=
  set_range_low low ;;
  set_range_high high ;;
  a ← get_self;
  for_in (range (range_low a) (range_high a + 1)) ensure_key ;;
  a ← get_self;
  print ("Range set to [" +:+ Text.str (range_low a) +:+ ", "
           +:+ Text.str (range_high a) +:+ "]").

Definition _reset_tracker : M unit :=
  set_tracker ∅ ;;
  a ← get_self;
  _set_range (range_low a) (range_high a).

Definition _in_range (num : Z) (raise_exc : bool) : M bool :=
  a ← get_self;
  if decide (num ∈ range (range_low a) (range_high a + 1)) then mret true
  else if raise_exc then raise ValueError
  else mret false.

(** [self.tracker[num] += add_amount] on a [defaultdict(int)]: a missing
    key counts as 0. *)
Definition _track (num add_amount : Z) : M unit :=
  ok ← _in_range num false;
  if (ok : bool) then
    a ← get_self;
    set_tracker (<[num := default 0 (tracker a !! num) + add_amount]> (tracker a))
  else
    a ← get_self;
    perror (_get_range_err num (range_low a) (range_high a)).

Definition _inc (num amount : Z) : M unit := _track num amount.
Definition _dec (num amount : Z) : M unit := _track num (- amount).

(** [[int(arg.strip()) for arg in args.split()]]; on [ValueError] the
    offending token is reported and the command ends. *)
Definition parse_args (args : string) : M (list Z) :=
  comprehension (λ arg, Text.int (Text.strip arg)) (Text.split args).

(** The first token [int] rejects, which is where the comprehension stops. *)
Definition first_bad (toks : list string) : option string :=
  snd <$> list_find (λ tok, Text.int (Text.strip tok) = None) toks.

Definition report_bad_args (args : string) : M unit :=
  match first_bad (Text.split args) with
  | Some tok => emit (Err_args tok)
  | None => mret ()
  end.

Definition do_i (args : string) : M bool :=
  parsed ← try_ValueError (Some <$> parse_args args)
                          (report_bad_args args ;; mret None);
  match parsed with
  | None => mret false
  | Some args =>
      (if decide (args = []) then print "Nothing to do" else mret ()) ;;
      for_in args (λ arg, _inc arg 1) ;;
      mret false
  end.

Definition do_d (args : string) : M bool :=
  parsed ← try_ValueError (Some <$> parse_args args)
                          (report_bad_args args ;; mret None);
  match parsed with
  | None => mret false
  | Some args =>
      (if decide (args = []) then print "Nothing to do" else mret ()) ;;
      for_in args (λ arg, _dec arg 1) ;;
      mret false
  end.

Definition do_reset : M bool := _reset_tracker ;; mret false.

Definition do_rs (args : string) : M bool :=
  let args := Text.strip <$> Text.split args in
  if decide (length args ≠ 2%nat) then
    perror "Please enter 2 integers (range low and high)" ;; mret false
  else
    parsed ← try_ValueError
                (Some <$> comprehension Text.int args)
                (perror "Please enter 2 integers (range low and high)" ;; mret None);
    match parsed with
    | Some [low; high] => _set_range low high ;; mret false
    | _ => mret false
    end.

(** [sum(self.tracker.values())] *)
Definition sum_values (t : gmap Z Z) : Z :=
  foldr Z.add 0 (snd <$> map_to_list t).
(** [sum(k * v for k, v in self.tracker.items())] *)
Definition sum_products (t : gmap Z Z) : Z :=
  foldr Z.add 0 ((λ kv, kv.1 * kv.2) <$> map_to_list t).
(** [sum(self.tracker.keys())] *)
Definition sum_keys (t : gmap Z Z) : Z :=
  foldr Z.add 0 (fst <$> map_to_list t).
(** [sorted(self.tracker.keys())] *)
Definition sorted_keys (t : gmap Z Z) : list Z :=
  merge_sort Z.le (fst <$> map_to_list t).
(** [len(self.tracker)] *)
Definition len (t : gmap Z Z) : Z := Z.of_nat (size t).

Definition do_p : M bool :=
  a ← get_self;
  let total := sum_values (tracker a) in
  if decide (total = 0) then print "Total occurrences == 0" ;; mret false
  else
    print "Num | Occurrences | Percent" ;;
    total_perc ← for_acc (sorted_keys (tracker a)) 0%Q (λ key total_perc,
      let val := default 0 (tracker a !! key) in
      q ← truediv val total;
      let perc := (q * 100)%Q in
      emit (Out_row key val (round2 perc)) ;;
      mret (total_perc + perc)%Q);
    print ("Total num occurrences: " +:+ Text.str total) ;;
    emit (Out_stat "Total percent" (round2 total_perc)) ;;
    avg_roll ← truediv (sum_products (tracker a)) total;
    expected_avg_roll ← truediv (sum_keys (tracker a)) (len (tracker a));
    emit (Out_stat "Average roll" (round2 avg_roll)) ;;
    emit (Out_stat "Expected average roll" expected_avg_roll) ;;
    avg_num_occurrences ← truediv total (len (tracker a));
    emit (Out_stat "Average num occurrences" avg_num_occurrences) ;;
    q ← truediv 1 (range_high a + 1 - range_low a);
    let expected_perc := (q * 100)%Q in
    emit (Out_stat "Fair percent" (round2 expected_perc)) ;;
    mret false.

(** The file name, stripped, or the default name when nothing is left. *)
Definition file_name (filename : string) : string :=
  match Text.strip filename with
  | EmptyString => "save.json"
  | name => name
  end.

(** [open(filename, "w")]: fails on an unwritable target, else leaves an
    empty file, which is not JSON. *)
Definition open_w (filename : string) : M unit :=
  d ← get_storage;
  if decide (filename ∈ unwritable d) then raise OSError
  else put_storage {| files := <[filename := Malformed]> (files d);
                      unreadable := unreadable d; unwritable := unwritable d |}.

Definition write (filename : string) (doc : document) : M unit :=
  d ← get_storage;
  put_storage {| files := <[filename := doc]> (files d);
                 unreadable := unreadable d; unwritable := unwritable d |}.

(** [open(filename, "r")] and [handle.read()] *)
Definition open_r (filename : string) : M document :=
  d ← get_storage;
  if decide (filename ∈ unreadable d) then raise OSError
  else match files d !! filename with
       | Some doc => mret doc
       | None => raise OSError
       end.

(** [json.dumps(self.tracker, indent=2)]: integer keys become their decimal
    text.  The members come in the map's order, not in insertion order. *)
Definition json_dumps (t : gmap Z Z) : document :=
  Object ((λ kv, (Text.str kv.1, kv.2)) <$> map_to_list t).

(** [d[k] = v] on a [dict] kept in insertion order. *)
Fixpoint dict_set (k : string) (v : Z) (d : list (string * Z)) : list (string * Z) :=
  match d with
  | [] => [(k, v)]
  | (k', v') :: d' => if decide (k = k') then (k, v) :: d' else (k', v') :: dict_set k v d'
  end.

(** The [dict] that [json.loads] builds from the members of an object: a
    repeated key keeps its first place and takes the last value. *)
Definition dict_of (members : list (string * Z)) : list (string * Z) :=
  foldl (λ d kv, dict_set kv.1 kv.2 d) [] members.

(** [json.loads(text).items()] *)
Definition json_loads_items (doc : document) : M (list (string * Z)) :=
  match doc with
  | Malformed => raise ValueError
  | Not_an_object => raise AttributeError
  | Object members => mret (dict_of members)
  end.

(** One item of [{int(k): v for k, v in ...}] *)
Definition int_key (kv : string * Z) : option (Z * Z) :=
  (λ k, (k, kv.2)) <$> Text.int kv.1.

(** [t.update(items)]: the items are stored in order, a later one wins. *)
Definition update (t : gmap Z Z) (items : list (Z * Z)) : gmap Z Z :=
  foldl (λ t kv, <[kv.1 := kv.2]> t) t items.

Definition do_save (filename : string) : M bool :=
  let filename := file_name filename in
  open_w filename ;;
  a ← get_self;
  write filename (json_dumps (tracker a)) ;;
  print ("Saved current results to file '" +:+ filename +:+ "'") ;;
  mret false.

Definition do_load (filename : string) : M bool :=
  let filename := file_name filename in
  doc ← open_r filename;
  _reset_tracker ;;
  items ← json_loads_items doc;
  loaded ← comprehension int_key items;
  a ← get_self;
  set_tracker (update (tracker a) loaded) ;;
  print ("Loaded previous results from file '" +:+ filename +:+ "'") ;;
  mret false.

Definition sys_exit {A} (code : Z) : M A := raise (SystemExit code).

Definition do_EOF : M bool := print EmptyString ;; sys_exit 0.
Definition do_exit : M bool := sys_exit 0.
Definition do_quit : M bool := sys_exit 0.
Definition emptyline : M bool := mret false.

(** ** The command loop of [cmd.Cmd]

    A line is taken as already cut into the command word and its argument.
    [onecmd] calls the method; [cmdloop] goes on until a method returns a
    true value or an exception leaves it.  At the end of the input the
    line is ["EOF"]. *)

Inductive command :=
  | Cmd_i (args : string)
  | Cmd_d (args : string)
  | Cmd_reset
  | Cmd_rs (args : string)
  | Cmd_p
  | Cmd_save (filename : string)
  | Cmd_load (filename : string)
  | Cmd_exit
  | Cmd_quit
  | Cmd_EOF
  | Cmd_empty.

Definition onecmd (c : command) : M bool :=
  match c with
  | Cmd_i args => do_i args
  | Cmd_d args => do_d args
  | Cmd_reset => do_reset
  | Cmd_rs args => do_rs args
  | Cmd_p => do_p
  | Cmd_save filename => do_save filename
  | Cmd_load filename => do_load filename
  | Cmd_exit => do_exit
  | Cmd_quit => do_quit
  | Cmd_EOF => do_EOF
  | Cmd_empty => emptyline
  end.

Fixpoint cmdloop (input : list command) : M unit :=
  match input with
  | [] => do_EOF ;; mret ()
  | c :: input' =>
      stop ← onecmd c;
      if (stop : bool) then mret () else cmdloop input'
  end.

Definition __init__ : M unit :=
  set_range_low 1 ;;
  set_range_high 6 ;;
  _reset_tracker.

(** The world before [App()] runs. *)
Definition blank (d : disk) : world :=
  {| self := {| range_low := 0; range_high := 0; tracker := ∅ |};
     storage := d; console := [] |}.

Definition no_disk : disk := {| files := ∅; unreadable := ∅; unwritable := ∅ |}.

(** [App()] *)
Definition new_App (d : disk) : world := (__init__ (blank d)).2.

(** [App().cmdloop()] *)
Definition main (d : disk) (input : list command) : (exn + unit) * world :=
  (__init__ ;; cmdloop input) (blank d).

(** The states of a session whose commands are all [allowed]: those of
    [App()] and those left by a command. *)
Inductive reachable_by (allowed : command → Prop) : world → Prop :=
  | reachable_new d : reachable_by allowed (new_App d)
  | reachable_cmd w c :
      allowed c → reachable_by allowed w → reachable_by allowed (onecmd c w).2.

Definition reachable : world → Prop := reachable_by (λ _, True).

(** The commands that can lower a count or bring one in from a file. *)
Definition lowers (c : command) : Prop :=
  match c with
  | Cmd_d _ | Cmd_load _ => True
  | _ => False
  end.

(** ** What the loops compute *)

(** The tally after the loop of [_set_range] has gone through [l]. *)
Definition ensure_keys (t : gmap Z Z) (l : list Z) : gmap Z Z :=
  foldl (λ t i, if decide (is_Some (t !! i)) then t else <[i := 0]> t) t l.

(** The integers of the inclusive range as a set. *)
Definition span (low high : Z) : gset Z := list_to_set (range low (high + 1)).

(** The tally holds a key for every integer of the current range. *)
Definition covers_range (a : App) : Prop :=
  span (range_low a) (range_high a) ⊆ dom (tracker a).

(** Replace the application object and add lines to the console. *)
Definition advance (w : world) (a : App) (ls : list line) : world :=
  {| self := a; storage := storage w; console := console w ++ ls |}.

(** Replace the application object only. *)
Definition with_self (w : world) (a : App) : world :=
  {| self := a; storage := storage w; console := console w |}.

Definition with_tracker (a : App) (t : gmap Z Z) : App :=
  {| range_low := range_low a; range_high := range_high a; tracker := t |}.

Definition range_msg (low high : Z) : line :=
  Out ("Range set to [" +:+ Text.str low +:+ ", " +:+ Text.str high +:+ "]").

(** The application object after [_track num amount]. *)
Definition track_app (a : App) (num amount : Z) : App :=
  if decide (range_low a ≤ num ≤ range_high a)
  then with_tracker a (<[num := default 0 (tracker a !! num) + amount]> (tracker a))
  else a.

(** The lines [_track] writes for each value of a batch. *)
Fixpoint track_lines (a : App) (amount : Z) (nums : list Z) : list line :=
  match nums with
  | [] => []
  | num :: nums' =>
      (if decide (range_low a ≤ num ≤ range_high a) then []
       else [Err (_get_range_err num (range_low a) (range_high a))])
      ++ track_lines (track_app a num amount) amount nums'
  end.

(** ** Definitions the statements use *)

(** Decimal digits, for the round trip of [str] and [int]. *)
Definition isdigit (c : ascii) : bool :=
  let n := nat_of_ascii c in ((48 <=? n) && (n <=? 57))%nat.

Fixpoint all_digits (s : string) : bool :=
  match s with
  | String c r => isdigit c && all_digits r
  | EmptyString => true
  end.

(** Both batch commands, run: [amount] is 1 for [do_i] and -1 for [do_d]. *)
Definition batch_result (amount : Z) (args : string) (w : world) : (exn + bool) * world :=
  match mapM (λ arg, Text.int (Text.strip arg)) (Text.split args) with
  | None =>
      (inr false,
       advance w (self w)
         (match first_bad (Text.split args) with Some tok => [Err_args tok] | None => [] end))
  | Some nums =>
      (inr false,
       advance w (foldl (λ a num, track_app a num amount) (self w) nums)
         ((if decide (nums = []) then [Out "Nothing to do"] else [])
          ++ track_lines (self w) amount nums))
  end.

(** [(val / total) * 100] *)
Definition percent_of (val total : Z) : Q := (inject_Z val / inject_Z total * 100)%Q.

(** The rows [do_p] prints for [keys], and the sum of their percents. *)
Definition row_lines (t : gmap Z Z) (total : Z) (keys : list Z) : list line :=
  (λ key, Out_row key (default 0 (t !! key))
            (round2 (percent_of (default 0 (t !! key)) total))) <$> keys.

Definition row_total (t : gmap Z Z) (total : Z) (keys : list Z) (acc : Q) : Q :=
  foldl (λ acc key, (acc + percent_of (default 0%Z (t !! key)) total)%Q) acc keys.

(** Everything [do_p] prints before it computes the fair percent. *)
Definition stats_head (a : App) : list line :=
  let t := tracker a in
  let total := sum_values t in
  [Out "Num | Occurrences | Percent"]
  ++ row_lines t total (sorted_keys t)
  ++ [Out ("Total num occurrences: " +:+ Text.str total);
      Out_stat "Total percent" (round2 (row_total t total (sorted_keys t) 0));
      Out_stat "Average roll" (round2 (inject_Z (sum_products t) / inject_Z total));
      Out_stat "Expected average roll" (inject_Z (sum_keys t) / inject_Z (len t));
      Out_stat "Average num occurrences" (inject_Z total / inject_Z (len t))].

(** [(1 / (high + 1 - low)) * 100], rounded as it is printed. *)
Definition fair_percent (low high : Z) : Q :=
  round2 (inject_Z 1 / inject_Z (high + 1 - low) * 100).

(** A session that leaves stale keys under the empty range [5, 4]:
    one increment of 1, then SetRange(5, 4). *)
Definition stale_empty_range : world :=
  (onecmd (Cmd_rs "5 4") (onecmd (Cmd_i "1") (new_App no_disk)).2).2.

(** A session that shrinks the range over counted keys: each of 1..6 once,
    then SetRange(1, 4). *)
Definition shrunk_range : world :=
  (onecmd (Cmd_rs "1 4") (onecmd (Cmd_i "1 2 3 4 5 6") (new_App no_disk)).2).2.

(** The application object after [_reset_tracker]. *)
Definition reset_app (a : App) : App :=
  with_tracker a (ensure_keys ∅ (range (range_low a) (range_high a + 1))).

(** The disk after [name] was written. *)
Definition store (d : disk) (name : string) (doc : document) : disk :=
  {| files := <[name := doc]> (files d);
     unreadable := unreadable d; unwritable := unwritable d |}.

Definition saved_msg (name : string) : line :=
  Out ("Saved current results to file '" +:+ name +:+ "'").

Definition loaded_msg (name : string) : line :=
  Out ("Loaded previous results from file '" +:+ name +:+ "'").

(** What [do_load] does once the file is open and holds [doc]. *)
Definition load_result (name : string) (doc : document) (w : world) : (exn + bool) * world :=
  let w1 := advance w (reset_app (self w))
              [range_msg (range_low (self w)) (range_high (self w))] in
  match doc with
  | Malformed => (inl ValueError, w1)
  | Not_an_object => (inl AttributeError, w1)
  | Object members =>
      match mapM int_key (dict_of members) with
      | None => (inl ValueError, w1)
      | Some loaded =>
          (inr false,
           advance w1 (with_tracker (self w1) (update (tracker (self w1)) loaded))
             [loaded_msg name])
      end
  end.

(** A disk whose only file is not JSON, one whose only path cannot be
    written. *)
Definition garbled_disk : disk :=
  {| files := {[ "save.json" := Malformed ]}; unreadable := ∅; unwritable := ∅ |}.

Definition locked_disk : disk :=
  {| files := ∅; unreadable := ∅; unwritable := {[ "save.json" ]} |}.

(** Every count is at least 0. *)
Definition nonneg (a : App) : Prop :=
  ∀ k c, tracker a !! k = Some c → 0 ≤ c.

(** A fresh engine, set to the range [1, 4], on the disk that the save of
    [shrunk_range] leaves. *)
Definition fresh_same_range : world :=
  (_set_range 1 4 (new_App (storage (do_save "save.json" shrunk_range).2))).2.

(** How often [k] occurs in a batch. *)
Definition occurrences (k : Z) (nums : list Z) : Z :=
  Z.of_nat (length (filter (λ n, n = k) nums)).

(** [num] is within the inclusive range of [a]. *)
Definition within (a : App) (num : Z) : Prop :=
  range_low a ≤ num ≤ range_high a.

#[global] Instance within_dec a num : Decision (within a num).
Proof. unfold within. apply _. Defined.




Fixpoint all_space (s : string) : bool :=
  match s with
  | String c r => Text.isspace c && all_space r
  | EmptyString => true
  end.

Ltac run :=
  cbv beta iota zeta delta
    [mbind M_bind mret M_ret raise get_self put_self emit get_storage put_storage
     set_range_low set_range_high set_tracker perror print sys_exit
     fst snd self storage console range_low range_high tracker].

(** ** Text, on examples *)

Example str_examples :
  Text.str 0 = "0" ∧ Text.str 42 = "42" ∧ Text.str (-7) = "-7".
Proof. repeat split; reflexivity. Qed.

Example int_examples :
  Text.int "12" = Some 12 ∧ Text.int " -3 " = Some (-3) ∧
  Text.int "+1_000" = Some 1000 ∧ Text.int "007" = Some 7 ∧
  Text.int "1__0" = None ∧ Text.int "_1" = None ∧ Text.int "1_" = None ∧
  Text.int "x" = None ∧ Text.int EmptyString = None ∧ Text.int "-" = None ∧
  Text.int "+-1" = None ∧ Text.int "1 2" = None.
Proof. repeat split; reflexivity. Qed.

Example split_examples :
  Text.split "  1 22   x3 " = ["1"; "22"; "x3"] ∧ Text.split "   " = [].
Proof. split; reflexivity. Qed.

(** ** Text round trip: [int(str(n)) = n] *)

Module TextFacts.
Import Text.

Lemma digit_plain c :
  isdigit c = true →
  isspace c = false ∧ Ascii.eqb c "_" = false ∧ Ascii.eqb c "-" = false ∧
  Ascii.eqb c "+" = false.
Proof.
  destruct c as [[] [] [] [] [] [] [] []]; vm_compute; intros; done.
Qed.

Lemma all_digits_uint d : all_digits (NilEmpty.string_of_uint d) = true.
Proof. induction d; cbn; done. Qed.

Lemma lstrip_digits s : all_digits s = true → lstrip s = s.
Proof.
  destruct s as [|c r]; [done|]. cbn. intros [Hc _]%andb_prop.
  apply digit_plain in Hc as (-> & _). done.
Qed.

Lemma rstrip_digits s : all_digits s = true → rstrip s = s.
Proof.
  induction s as [|c r IH]; [done|]. cbn. intros [Hc Hr]%andb_prop.
  rewrite (IH Hr). apply digit_plain in Hc as (-> & _). by destruct r.
Qed.

Lemma drop_underscores_digits s :
  all_digits s = true → drop_underscores true s = Some s.
Proof.
  induction s as [|c r IH]; [done|]. cbn. intros [Hc Hr]%andb_prop.
  apply digit_plain in Hc as (_ & -> & _). by rewrite (IH Hr).
Qed.

Lemma digits_uint d :
  d ≠ Nil → digits (NilEmpty.string_of_uint d) = Some (Z.of_uint d).
Proof.
  intros Hd. pose proof (all_digits_uint d) as Hall.
  pose proof (NilZero.usu d Hd) as Husu.
  assert (Hs : NilZero.string_of_uint d = NilEmpty.string_of_uint d) by by destruct d.
  rewrite Hs in Husu.
  unfold digits. destruct (NilEmpty.string_of_uint d) as [|c r] eqn:Heq.
  { by destruct d. }
  cbn in Hall. apply andb_prop in Hall as [Hc Hr].
  cbn [drop_underscores]. destruct (digit_plain c Hc) as (_ & -> & _).
  rewrite (drop_underscores_digits r Hr). cbn -[NilZero.uint_of_string].
  by rewrite Husu.
Qed.

Lemma int_pos p : int (NilEmpty.string_of_uint (Pos.to_uint p)) = Some (Z.pos p).
Proof.
  pose proof (DecimalPos.Unsigned.to_uint_nonnil p) as Hd.
  pose proof (digits_uint _ Hd) as Hdig.
  pose proof (all_digits_uint (Pos.to_uint p)) as Hall.
  unfold int, strip. rewrite (lstrip_digits _ Hall), (rstrip_digits _ Hall).
  destruct (NilEmpty.string_of_uint (Pos.to_uint p)) as [|c r] eqn:Heq.
  { by destruct (Pos.to_uint p). }
  cbn in Hall. apply andb_prop in Hall as [Hc Hr].
  destruct (digit_plain c Hc) as (_ & _ & -> & ->).
  rewrite Hdig. unfold Z.of_uint. by rewrite DecimalPos.Unsigned.of_to.
Qed.

Lemma str_pos p : str (Z.pos p) = NilEmpty.string_of_uint (Pos.to_uint p).
Proof.
  unfold str. cbn. pose proof (DecimalPos.Unsigned.to_uint_nonnil p).
  by destruct (Pos.to_uint p).
Qed.

Lemma str_neg p : str (Z.neg p) = String "-" (NilEmpty.string_of_uint (Pos.to_uint p)).
Proof.
  unfold str. cbn. pose proof (DecimalPos.Unsigned.to_uint_nonnil p).
  by destruct (Pos.to_uint p).
Qed.

(** [int(str(n)) == n] *)
Lemma int_str n : int (str n) = Some n.
Proof.
  destruct n as [|p|p].
  - reflexivity.
  - rewrite str_pos. apply int_pos.
  - rewrite str_neg.
    pose proof (DecimalPos.Unsigned.to_uint_nonnil p) as Hd.
    pose proof (digits_uint _ Hd) as Hdig.
    pose proof (all_digits_uint (Pos.to_uint p)) as Hall.
    unfold int, strip. cbn [lstrip].
    change (isspace "-") with false. cbn [rstrip].
    rewrite (rstrip_digits _ Hall).
    destruct (NilEmpty.string_of_uint (Pos.to_uint p)) as [|c r] eqn:Heq.
    { by destruct (Pos.to_uint p). }
    change (Ascii.eqb "-" "-") with true. cbv iota.
    rewrite Hdig. unfold Z.of_uint. by rewrite DecimalPos.Unsigned.of_to.
Qed.

Lemma str_inj n m : str n = str m → n = m.
Proof.
  intros Heq. pose proof (int_str n) as Hn. rewrite Heq, int_str in Hn. congruence.
Qed.

(** [strip] is idempotent, so [int(arg.strip())] is [int(arg)]. *)
Lemma lstrip_head s :
  lstrip s = EmptyString ∨ ∃ c r, lstrip s = String c r ∧ isspace c = false.
Proof.
  induction s as [|c r IH]; [by left|]. cbn.
  destruct (isspace c) eqn:Hc; [done|]. right. eauto.
Qed.

Lemma rstrip_rstrip s : rstrip (rstrip s) = rstrip s.
Proof.
  induction s as [|c r IH]; [done|]. cbn.
  destruct (rstrip r) as [|c' r'] eqn:Hr.
  - destruct (isspace c) eqn:Hc; [done|]. cbn. by rewrite Hc.
  - cbn [rstrip]. cbn [rstrip] in IH. rewrite IH. done.
Qed.

Lemma strip_strip s : strip (strip s) = strip s.
Proof.
  unfold strip. destruct (lstrip_head s) as [->|(c & r & -> & Hc)]; [done|].
  assert (Hl : lstrip (rstrip (String c r)) = rstrip (String c r)).
  { cbn. destruct (rstrip r); rewrite ?Hc; cbn; by rewrite ?Hc. }
  rewrite Hl. apply rstrip_rstrip.
Qed.

Lemma int_strip s : int (strip s) = int s.
Proof. unfold int. by rewrite strip_strip. Qed.

End TextFacts.

(** ** Ranges *)

Lemma elem_of_range k a b : k ∈ range a b ↔ a ≤ k < b.
Proof. unfold range. rewrite elem_of_seqZ. lia. Qed.

Lemma elem_of_span k low high : k ∈ span low high ↔ low ≤ k ≤ high.
Proof. unfold span. rewrite elem_of_list_to_set, elem_of_range. lia. Qed.

Lemma lookup_ensure_keys t l k :
  ensure_keys t l !! k =
    match t !! k with
    | Some c => Some c
    | None => if decide (k ∈ l) then Some 0 else None
    end.
Proof.
  revert t. induction l as [|i l IH]; intros t; cbn.
  - destruct (t !! k); [done|]. by rewrite decide_False by apply not_elem_of_nil.
  - fold (ensure_keys (if decide (is_Some (t !! i)) then t else <[i:=0]> t) l).
    rewrite IH. destruct (decide (is_Some (t !! i))) as [Hi|Hi].
    + destruct (t !! k) eqn:Hk; [done|].
      destruct (decide (k = i)) as [->|Hne].
      * rewrite Hk in Hi. by destruct Hi.
      * destruct (decide (k ∈ l)) as [Hl|Hl].
        -- rewrite decide_True; [done|]. by right.
        -- rewrite decide_False; [done|]. rewrite elem_of_cons. by intros [?|?].
    + apply eq_None_not_Some in Hi.
      destruct (decide (k = i)) as [->|Hne].
      * rewrite lookup_insert_eq, Hi. rewrite decide_True; [done|]. by left.
      * rewrite lookup_insert_ne by done. destruct (t !! k); [done|].
        destruct (decide (k ∈ l)) as [Hl|Hl].
        -- rewrite decide_True; [done|]. by right.
        -- rewrite decide_False; [done|]. rewrite elem_of_cons. by intros [?|?].
Qed.

Lemma dom_ensure_keys t l : dom (ensure_keys t l) = dom t ∪ list_to_set l.
Proof.
  apply set_eq. intros k.
  rewrite elem_of_union, !elem_of_dom, elem_of_list_to_set, lookup_ensure_keys.
  destruct (t !! k) eqn:Hk.
  - split; [left|]; eauto.
  - destruct (decide (k ∈ l)).
    + split; [by right|]; eauto.
    + split; [by intros [? ?]|]. intros [[? ?]|?]; done.
Qed.

(** ** The methods, run *)

Lemma bind_run {A B} (m : M A) (k : A → M B) w :
  (m ≫= k) w = match m w with
               | (inr a, w') => k a w'
               | (inl e, w') => (inl e, w')
               end.
Proof. reflexivity. Qed.

Lemma ensure_key_run i w :
  ensure_key i w =
    (inr (), with_self w (with_tracker (self w) (ensure_keys (tracker (self w)) [i]))).
Proof.
  destruct w as [[lo hi t] d c]. unfold ensure_key. run. cbn.
  destruct (decide (is_Some (t !! i))); reflexivity.
Qed.

Lemma set_range_loop l w :
  for_in l ensure_key w =
    (inr (), with_self w (with_tracker (self w) (ensure_keys (tracker (self w)) l))).
Proof.
  revert w. induction l as [|i l IH]; intros w.
  - by destruct w as [[lo hi t] d c].
  - cbn [for_in]. rewrite bind_run, ensure_key_run, IH. reflexivity.
Qed.

Lemma _set_range_run low high w :
  _set_range low high w =
    (inr (), advance w {| range_low := low; range_high := high;
                          tracker := ensure_keys (tracker (self w)) (range low (high + 1)) |}
                     [range_msg low high]).
Proof.
  unfold _set_range. run. rewrite set_range_loop. reflexivity.
Qed.

Lemma _reset_tracker_run w :
  _reset_tracker w =
    (inr (), advance w (with_tracker (self w)
                          (ensure_keys ∅ (range (range_low (self w)) (range_high (self w) + 1))))
                     [range_msg (range_low (self w)) (range_high (self w))]).
Proof. unfold _reset_tracker. run. by rewrite _set_range_run. Qed.

Lemma _track_run num amount w :
  _track num amount w =
    if decide (range_low (self w) ≤ num ≤ range_high (self w))
    then (inr (), with_self w (with_tracker (self w)
                    (<[num := default 0 (tracker (self w) !! num) + amount]> (tracker (self w)))))
    else (inr (), advance w (self w)
                    [Err (_get_range_err num (range_low (self w)) (range_high (self w)))]).
Proof.
  unfold _track, _in_range. run.
  destruct (decide (num ∈ _)) as [Hin|Hin]; rewrite elem_of_range in Hin.
  - rewrite decide_True by lia. reflexivity.
  - rewrite decide_False by lia. reflexivity.
Qed.

(** ** Tracking outside the range *)

(** C1: for every state and every value outside the inclusive range
    [low, high], [_track] (and so [_inc] and [_dec]) returns normally,
    leaves the application object, hence the whole tally, as it was, so no
    key is created for the value, and writes one error line that spells
    out the value and both bounds. *)
Theorem track_out_of_range w num amount :
  ¬ (range_low (self w) ≤ num ≤ range_high (self w)) →
  let msg := "Number " +:+ Text.str num +:+ " no in range ["
               +:+ Text.str (range_low (self w)) +:+ ", "
               +:+ Text.str (range_high (self w)) +:+ "]" in
  _track num amount w = (inr (), advance w (self w) [Err msg]) ∧
  _inc num amount w = (inr (), advance w (self w) [Err msg]) ∧
  _dec num amount w = (inr (), advance w (self w) [Err msg]) ∧
  tracker (self (_track num amount w).2) = tracker (self w) ∧
  tracker (self (_track num amount w).2) !! num = tracker (self w) !! num.
Proof.
  intros Hout msg.
  assert (Hrun : ∀ amt, _track num amt w = (inr (), advance w (self w) [Err msg])).
  { intros amt. rewrite _track_run. by rewrite decide_False. }
  unfold _inc, _dec. rewrite !Hrun. done.
Qed.

Lemma track_out_of_range_witness :
  ¬ (range_low (self (new_App no_disk)) ≤ 7 ≤ range_high (self (new_App no_disk))) ∧
  (_track 7 1 (new_App no_disk)).2 =
    advance (new_App no_disk) (self (new_App no_disk))
      [Err "Number 7 no in range [1, 6]"] ∧
  tracker (self (_track 7 1 (new_App no_disk)).2) !! 7 = None.
Proof.
  assert (Hout : ¬ (range_low (self (new_App no_disk)) ≤ 7
                    ≤ range_high (self (new_App no_disk)))).
  { vm_compute. intros [_ H]. by apply H. }
  split; [exact Hout|].
  destruct (track_out_of_range (new_App no_disk) 7 1 Hout) as (Ht & _ & _ & _ & Hk).
  split.
  - rewrite Ht. reflexivity.
  - rewrite Hk. reflexivity.
Defined.

(** ** Keys after a reset and after a range change *)

(** C2, as the claim states it, fails: after [SetRange(1, 4)] on a new
    application, whose tally has the keys 1..6, the key set is not the
    span of the range. *)
Lemma set_range_key_set_counterexample :
  let w := (_set_range 1 4 (new_App no_disk)).2 in
  range_low (self w) = 1 ∧ range_high (self w) = 4 ∧
  dom (tracker (self w)) ≠ span (range_low (self w)) (range_high (self w)).
Proof.
  cbv zeta. split; [reflexivity|]. split; [reflexivity|].
  intros Heq.
  apply (f_equal (λ s : gset Z, bool_decide (5 ∈ s))) in Heq.
  vm_compute in Heq. discriminate Heq.
Qed.

(** C2, amended: after a reset the key set is exactly the span of the
    current range, which the reset does not change; after
    [_set_range low high] the range is [low, high] and the key set is the
    span of the new range together with every key that was there before. *)
Theorem reset_set_range_keys w low high :
  (let w' := (_reset_tracker w).2 in
   range_low (self w') = range_low (self w) ∧
   range_high (self w') = range_high (self w) ∧
   dom (tracker (self w')) = span (range_low (self w')) (range_high (self w'))) ∧
  (let w' := (_set_range low high w).2 in
   range_low (self w') = low ∧
   range_high (self w') = high ∧
   dom (tracker (self w')) =
     dom (tracker (self w)) ∪ span (range_low (self w')) (range_high (self w'))).
Proof.
  split; cbv zeta.
  - rewrite _reset_tracker_run. cbn. repeat split.
    rewrite dom_ensure_keys, dom_empty_L. apply (left_id_L ∅ (∪)).
  - rewrite _set_range_run. cbn. repeat split. apply dom_ensure_keys.
Qed.

(** C3: [_set_range low high] keeps every entry of the tally with its
    count, also those outside the new range, and gives every integer of
    [low, high] that had no entry the count 0.  In the scenario
    SetRange(1,6), increments of 5, 6 and 6, SetRange(1,4), the keys 5 and 6
    are still there with the counts 1 and 2. *)
Theorem set_range_entries w low high :
  let t := tracker (self w) in
  let t' := tracker (self (_set_range low high w).2) in
  (∀ k c, t !! k = Some c → t' !! k = Some c) ∧
  (∀ k, low ≤ k ≤ high → t !! k = None → t' !! k = Some 0) ∧
  (∀ k, ¬ (low ≤ k ≤ high) → t' !! k = t !! k) ∧
  (let s := (main no_disk [Cmd_rs "1 6"; Cmd_i "5 6 6"; Cmd_rs "1 4"]).2 in
   range_low (self s) = 1 ∧ range_high (self s) = 4 ∧
   tracker (self s) !! 5 = Some 1 ∧ tracker (self s) !! 6 = Some 2).
Proof.
  cbv zeta. rewrite _set_range_run. cbn [snd self advance tracker].
  split; [|split; [|split]].
  - intros k c Hk. by rewrite lookup_ensure_keys, Hk.
  - intros k Hin Hk. rewrite lookup_ensure_keys, Hk.
    rewrite decide_True; [done|]. apply elem_of_range. lia.
  - intros k Hout. rewrite lookup_ensure_keys. destruct (tracker (self w) !! k); [done|].
    rewrite decide_False; [done|]. rewrite elem_of_range. lia.
  - vm_compute. done.
Qed.

Lemma set_range_entries_witness :
  let w := (onecmd (Cmd_i "5 6 6") (new_App no_disk)).2 in
  tracker (self w) !! 6 = Some 2 ∧
  tracker (self (_set_range 1 4 w).2) !! 6 = Some 2 ∧
  ¬ (1 ≤ 6 ≤ 4).
Proof.
  cbv zeta.
  assert (H6 : tracker (self (onecmd (Cmd_i "5 6 6") (new_App no_disk)).2) !! 6 = Some 2)
    by (vm_compute; reflexivity).
  split; [exact H6|]. split; [|lia].
  exact (proj1 (set_range_entries _ 1 4) 6 2 H6).
Defined.

(** ** Batches *)

Lemma fmap_run {A B} (f : A → B) (m : M A) w :
  (f <$> m) w = match m w with
                | (inr a, w') => (inr (f a), w')
                | (inl e, w') => (inl e, w')
                end.
Proof. reflexivity. Qed.

Lemma comprehension_run {A B} (f : A → option B) l w :
  comprehension f l w =
    match mapM f l with
    | Some ys => (inr ys, w)
    | None => (inl ValueError, w)
    end.
Proof.
  induction l as [|x l IH]; [done|]. cbn.
  destruct (f x) as [y|]; [|done]. cbn.
  rewrite bind_run, IH. by destruct (mapM f l).
Qed.


Lemma track_loop_run amount nums w :
  for_in nums (λ arg, _track arg amount) w =
    (inr (), advance w (foldl (λ a num, track_app a num amount) (self w) nums)
               (track_lines (self w) amount nums)).
Proof.
  revert w. induction nums as [|num nums IH]; intros w.
  - destruct w as [a d c]. cbn. unfold advance. cbn. by rewrite app_nil_r.
  - cbn [for_in foldl track_lines]. rewrite bind_run, _track_run.
    unfold track_app. destruct (decide (_ ≤ num ≤ _)); rewrite IH.
    + reflexivity.
    + unfold advance. cbn. by rewrite <- app_assoc.
Qed.

Lemma do_i_run args w : do_i args w = batch_result 1 args w.
Proof.
  unfold do_i, batch_result. rewrite bind_run. unfold try_ValueError.
  rewrite fmap_run. unfold parse_args. rewrite comprehension_run.
  destruct (mapM _ _) as [nums|].
  - rewrite !bind_run. unfold _inc.
    destruct (decide (nums = [])) as [->|Hne].
    + destruct w as [a d c]. reflexivity.
    + cbn. rewrite bind_run, track_loop_run. reflexivity.
  - unfold report_bad_args. rewrite bind_run.
    destruct (first_bad _); [reflexivity|].
    destruct w as [a d c]. cbn. unfold advance. cbn. by rewrite app_nil_r.
Qed.

Lemma do_d_run args w : do_d args w = batch_result (-1) args w.
Proof.
  unfold do_d, batch_result. rewrite bind_run. unfold try_ValueError.
  rewrite fmap_run. unfold parse_args. rewrite comprehension_run.
  destruct (mapM _ _) as [nums|].
  - rewrite !bind_run. unfold _dec. change (- (1)) with (-1).
    destruct (decide (nums = [])) as [->|Hne].
    + destruct w as [a d c]. reflexivity.
    + cbn. rewrite bind_run, track_loop_run. reflexivity.
  - unfold report_bad_args. rewrite bind_run.
    destruct (first_bad _); [reflexivity|].
    destruct w as [a d c]. cbn. unfold advance. cbn. by rewrite app_nil_r.
Qed.



(** ** Statistics *)

Lemma truediv_run a b w :
  truediv a b w = if decide (b = 0) then (inl ZeroDivisionError, w)
                  else (inr (inject_Z a / inject_Z b)%Q, w).
Proof. unfold truediv. by destruct (decide (b = 0)). Qed.

Lemma row_loop_run t total keys acc w :
  total ≠ 0 →
  for_acc keys acc (λ key total_perc,
      let val := default 0 (t !! key) in
      q ← truediv val total;
      let perc := (q * 100)%Q in
      emit (Out_row key val (round2 perc)) ;;
      mret (total_perc + perc)%Q) w
  = (inr (row_total t total keys acc), advance w (self w) (row_lines t total keys)).
Proof.
  intros Htotal. revert acc w. induction keys as [|key keys IH]; intros acc w.
  - destruct w as [a d c]. cbn. unfold advance. cbn. by rewrite app_nil_r.
  - cbn [for_acc]. rewrite bind_run. cbv zeta. rewrite bind_run, truediv_run.
    rewrite decide_False by done. rewrite bind_run. cbn [emit]. unfold emit at 1.
    cbv beta iota. unfold mret at 1, M_ret at 1. rewrite IH.
    unfold advance. cbn. by rewrite <- app_assoc.
Qed.

Lemma sum_values_empty (t : gmap Z Z) : size t = 0%nat → sum_values t = 0.
Proof.
  intros Hsize. apply map_size_empty_iff in Hsize. subst t.
  unfold sum_values. by rewrite map_to_list_empty.
Qed.

Lemma len_nonzero (t : gmap Z Z) : sum_values t ≠ 0 → len t ≠ 0.
Proof.
  intros Hsum Hlen. apply Hsum, sum_values_empty. unfold len in Hlen. lia.
Qed.

Lemma do_p_run w :
  do_p w =
    let a := self w in
    if decide (sum_values (tracker a) = 0)
    then (inr false, advance w a [Out "Total occurrences == 0"])
    else if decide (range_high a + 1 - range_low a = 0)
    then (inl ZeroDivisionError, advance w a (stats_head a))
    else (inr false,
          advance w a (stats_head a
                         ++ [Out_stat "Fair percent"
                               (fair_percent (range_low a) (range_high a))])).
Proof.
  destruct w as [[lo hi t] d c]. cbv zeta. cbn [self tracker range_low range_high].
  unfold do_p. rewrite bind_run. unfold get_self at 1.
  cbv beta iota zeta. cbn [self tracker range_low range_high].
  destruct (decide (sum_values t = 0)) as [Hz|Hnz]; [reflexivity|].
  pose proof (len_nonzero _ Hnz) as Hlen.
  rewrite bind_run. unfold print at 1, emit at 1. cbv beta iota.
  rewrite bind_run, (row_loop_run _ _ _ _ _ Hnz).
  unfold advance. run.
  rewrite truediv_run, (decide_False _ _ Hnz). cbv beta iota.
  rewrite truediv_run, (decide_False _ _ Hlen). cbv beta iota.
  rewrite truediv_run, (decide_False _ _ Hlen). cbv beta iota.
  rewrite truediv_run.
  destruct (decide (hi + 1 - lo = 0)); cbv beta iota.
  - unfold stats_head. cbn. rewrite <- !app_assoc. reflexivity.
  - unfold stats_head, fair_percent. cbn. rewrite <- !app_assoc. reflexivity.
Qed.






(** ** Saving and loading *)

Lemma reset_tracker_world w :
  (_reset_tracker w).2 =
    advance w (reset_app (self w)) [range_msg (range_low (self w)) (range_high (self w))].
Proof. by rewrite _reset_tracker_run. Qed.

Lemma do_save_run filename w :
  do_save filename w =
    let name := file_name filename in
    if decide (name ∈ unwritable (storage w)) then (inl OSError, w)
    else (inr false,
          {| self := self w;
             storage := store (storage w) name (json_dumps (tracker (self w)));
             console := console w ++ [saved_msg name] |}).
Proof.
  destruct w as [a d c]. cbv zeta. unfold do_save, open_w, write. run.
  destruct (decide (file_name filename ∈ unwritable d)); [reflexivity|].
  unfold store, saved_msg. cbn. by rewrite insert_insert_eq.
Qed.

Lemma do_load_run filename w :
  do_load filename w =
    let name := file_name filename in
    if decide (name ∈ unreadable (storage w)) then (inl OSError, w)
    else match files (storage w) !! name with
         | None => (inl OSError, w)
         | Some doc => load_result name doc w
         end.
Proof.
  cbv zeta. unfold do_load. rewrite bind_run. unfold open_r at 1.
  rewrite bind_run. unfold get_storage at 1. cbv beta iota.
  destruct (decide (file_name filename ∈ unreadable (storage w))); [reflexivity|].
  destruct (files (storage w) !! file_name filename) as [doc|]; [|reflexivity].
  unfold mret at 1, M_ret at 1. cbv beta iota.
  rewrite bind_run, _reset_tracker_run. cbv beta iota.
  unfold load_result. cbv zeta. fold (reset_app (self w)).
  destruct doc as [| |members]; [reflexivity|reflexivity|].
  rewrite bind_run. unfold json_loads_items, mret at 1, M_ret at 1. cbv beta iota.
  rewrite bind_run, comprehension_run.
  destruct (mapM int_key (dict_of members)) as [loaded|]; reflexivity.
Qed.

Lemma cmdloop_raise c rest w e w' :
  onecmd c w = (inl e, w') → cmdloop (c :: rest) w = (inl e, w').
Proof. intros Hc. cbn [cmdloop]. by rewrite bind_run, Hc. Qed.

Lemma cmdloop_continue c rest w w' :
  onecmd c w = (inr false, w') → cmdloop (c :: rest) w = cmdloop rest w'.
Proof. intros Hc. cbn [cmdloop]. by rewrite bind_run, Hc. Qed.

(** C4, as the claim states it, fails: a load of a missing file, a load
    of a file that is not JSON and a save to an unwritable target each end
    the session with the exception, not with the exit status of the exit
    commands, and the increment that follows in the input is never run. *)
Lemma storage_failure_counterexample :
  (let r := main no_disk [Cmd_load "nofile"; Cmd_i "1"] in
   r.1 = inl OSError ∧ tracker (self r.2) !! 1 = Some 0) ∧
  (let r := main garbled_disk [Cmd_load " save.json"; Cmd_i "1"] in
   r.1 = inl ValueError ∧ tracker (self r.2) !! 1 = Some 0) ∧
  (let r := main locked_disk [Cmd_save " save.json"; Cmd_i "1"] in
   r.1 = inl OSError ∧ tracker (self r.2) !! 1 = Some 0) ∧
  (let r := main no_disk [Cmd_i "1"] in
   r.1 = inl (SystemExit 0) ∧ tracker (self r.2) !! 1 = Some 1).
Proof. by vm_compute. Qed.

(** C4, amended: a storage failure raises an exception that neither
    [do_load] nor [do_save] catches, and the command loop passes it on: the
    session ends with that exception and the rest of the input is not run.
    A load whose file is missing or unreadable ends with [OSError] and
    changes nothing; a load whose file is not JSON ends with [ValueError]
    after the reset; a save to an unwritable target ends with [OSError] and
    changes nothing. *)
Theorem storage_failure_ends_session w filename rest :
  let name := file_name filename in
  (name ∈ unreadable (storage w) ∨ files (storage w) !! name = None →
   cmdloop (Cmd_load filename :: rest) w = (inl OSError, w)) ∧
  (name ∉ unreadable (storage w) → files (storage w) !! name = Some Malformed →
   cmdloop (Cmd_load filename :: rest) w = (inl ValueError, (_reset_tracker w).2)) ∧
  (name ∈ unwritable (storage w) →
   cmdloop (Cmd_save filename :: rest) w = (inl OSError, w)).
Proof.
  cbv zeta. split; [|split].
  - intros Hopen. apply cmdloop_raise. cbn [onecmd]. rewrite do_load_run. cbv zeta.
    destruct (decide (_ ∈ _)); [done|]. destruct Hopen as [?|Hnone]; [done|].
    by rewrite Hnone.
  - intros Hr Hdoc. apply cmdloop_raise. cbn [onecmd]. rewrite do_load_run. cbv zeta.
    rewrite decide_False by done. rewrite Hdoc. unfold load_result. cbv zeta.
    by rewrite reset_tracker_world.
  - intros Hw. apply cmdloop_raise. cbn [onecmd]. rewrite do_save_run. cbv zeta.
    by rewrite decide_True.
Qed.

Lemma storage_failure_ends_session_witness :
  (file_name "nofile" ∈ unreadable (storage (new_App no_disk))
   ∨ files (storage (new_App no_disk)) !! (file_name "nofile") = None) ∧
  cmdloop [Cmd_load "nofile"; Cmd_i "1"] (new_App no_disk) = (inl OSError, new_App no_disk) ∧
  (file_name " save.json" ∉ unreadable (storage (new_App garbled_disk))) ∧
  files (storage (new_App garbled_disk)) !! (file_name " save.json") = Some Malformed ∧
  cmdloop [Cmd_load " save.json"; Cmd_i "1"] (new_App garbled_disk)
    = (inl ValueError, (_reset_tracker (new_App garbled_disk)).2) ∧
  file_name " save.json" ∈ unwritable (storage (new_App locked_disk)) ∧
  cmdloop [Cmd_save " save.json"; Cmd_i "1"] (new_App locked_disk) = (inl OSError, new_App locked_disk).
Proof.
  assert (H1 : file_name "nofile" ∈ unreadable (storage (new_App no_disk))
               ∨ files (storage (new_App no_disk)) !! (file_name "nofile") = None)
    by (right; reflexivity).
  assert (H2 : file_name " save.json" ∉ unreadable (storage (new_App garbled_disk)))
    by (change (file_name " save.json" ∉ (∅ : gset string)); apply not_elem_of_empty).
  assert (H3 : files (storage (new_App garbled_disk)) !! (file_name " save.json") = Some Malformed)
    by reflexivity.
  assert (H4 : file_name " save.json" ∈ unwritable (storage (new_App locked_disk)))
    by (change (file_name " save.json" ∈ ({[ "save.json" ]} : gset string));
        apply elem_of_singleton; reflexivity).
  split; [exact H1|].
  split; [exact (proj1 (storage_failure_ends_session _ "nofile" [Cmd_i "1"]) H1)|].
  split; [exact H2|]. split; [exact H3|].
  split; [exact (proj1 (proj2 (storage_failure_ends_session _ " save.json" [Cmd_i "1"])) H2 H3)|].
  split; [exact H4|].
  exact (proj2 (proj2 (storage_failure_ends_session _ " save.json" [Cmd_i "1"])) H4).
Defined.




(** ** What a command does to the application object *)

Lemma do_rs_self args w :
  (do_rs args w).1 = inr false ∧
  ((do_rs args w).2 = advance w (self w) [Err "Please enter 2 integers (range low and high)"]
   ∨ ∃ low high, (do_rs args w).2 = (_set_range low high w).2).
Proof.
  unfold do_rs. cbv zeta.
  destruct (decide (length (Text.strip <$> Text.split args) ≠ 2%nat)) as [Hlen|Hlen].
  { split; [done|]. by left. }
  rewrite bind_run. unfold try_ValueError. rewrite fmap_run, comprehension_run.
  destruct (mapM Text.int (Text.strip <$> Text.split args)) as [nums|] eqn:Hnums.
  - destruct nums as [|low [|high [|? ?]]].
    1,2,4: split; [done|]; left; destruct w as [a d c]; unfold advance; cbn.
    1-3: apply length_mapM in Hnums; cbn in Hnums; lia.
    rewrite bind_run, _set_range_run. split; [done|]. right. exists low, high.
    by rewrite _set_range_run.
  - split; [done|]. by left.
Qed.

Lemma covers_range_set_range low high w :
  covers_range (self (_set_range low high w).2).
Proof.
  rewrite _set_range_run. unfold covers_range. cbn.
  rewrite dom_ensure_keys. unfold span. apply union_subseteq_r.
Qed.

Lemma covers_range_reset_app a : covers_range (reset_app a).
Proof.
  unfold covers_range, reset_app. cbn.
  rewrite dom_ensure_keys. unfold span. apply union_subseteq_r.
Qed.

Lemma covers_range_track_app a num amount :
  covers_range a → covers_range (track_app a num amount).
Proof.
  unfold covers_range, track_app. intros Hcov.
  destruct (decide (_ ≤ num ≤ _)); [|done]. cbn.
  rewrite dom_insert_L. etrans; [exact Hcov|]. apply union_subseteq_r.
Qed.

Lemma covers_range_track_all a amount nums :
  covers_range a → covers_range (foldl (λ a num, track_app a num amount) a nums).
Proof.
  revert a. induction nums as [|num nums IH]; intros a Hcov; [done|].
  cbn. by apply IH, covers_range_track_app.
Qed.

Lemma dom_update_subseteq t items : dom t ⊆ dom (update t items).
Proof.
  revert t. induction items as [|kv items IH]; intros t; [done|].
  cbn. etrans; [|apply IH]. rewrite dom_insert_L. apply union_subseteq_r.
Qed.

Lemma batch_result_self amount args w :
  (batch_result amount args w).1 = inr false ∧
  ∃ nums, self (batch_result amount args w).2
          = foldl (λ a num, track_app a num amount) (self w) nums.
Proof.
  unfold batch_result. destruct (mapM _ _) as [nums|].
  - split; [done|]. by exists nums.
  - split; [done|]. by exists [].
Qed.

Lemma do_p_self w : self (do_p w).2 = self w.
Proof. rewrite do_p_run. cbv zeta. by repeat destruct (decide _). Qed.

Lemma do_save_self filename w : self (do_save filename w).2 = self w.
Proof. rewrite do_save_run. cbv zeta. by destruct (decide _). Qed.

Lemma do_load_self filename w :
  self (do_load filename w).2 = self w
  ∨ self (do_load filename w).2 = reset_app (self w)
  ∨ ∃ loaded, self (do_load filename w).2
              = with_tracker (reset_app (self w)) (update (tracker (reset_app (self w))) loaded).
Proof.
  rewrite do_load_run. cbv zeta. destruct (decide _); [by left|].
  destruct (files _ !! _) as [doc|]; [|by left]. unfold load_result. cbv zeta.
  destruct doc as [| |members]; [right; by left..|].
  destruct (mapM _ _) as [loaded|]; [|right; by left].
  right; right. by exists loaded.
Qed.

Lemma covers_range_new d : covers_range (self (new_App d)).
Proof.
  unfold new_App, __init__. run. rewrite _reset_tracker_run.
  apply covers_range_reset_app.
Qed.

Lemma covers_range_onecmd c w :
  covers_range (self w) → covers_range (self (onecmd c w).2).
Proof.
  intros Hcov. destruct c; cbn [onecmd].
  - rewrite do_i_run. destruct (batch_result_self 1 args w) as (_ & nums & ->).
    by apply covers_range_track_all.
  - rewrite do_d_run. destruct (batch_result_self (-1) args w) as (_ & nums & ->).
    by apply covers_range_track_all.
  - unfold do_reset. rewrite bind_run, _reset_tracker_run.
    apply covers_range_reset_app.
  - destruct (do_rs_self args w) as (_ & [->|(low & high & ->)]); [done|].
    apply covers_range_set_range.
  - by rewrite do_p_self.
  - by rewrite do_save_self.
  - destruct (do_load_self filename w) as [->|[->|(loaded & ->)]]; [done|..].
    + apply covers_range_reset_app.
    + pose proof (covers_range_reset_app (self w)) as Hres.
      unfold covers_range in *. cbn [with_tracker range_low range_high tracker].
      etrans; [exact Hres|]. apply dom_update_subseteq.
  - done.
  - done.
  - done.
  - done.
Qed.

(** In every state of a session the tally has a key for each integer of
    the current range. *)
Lemma reachable_covers_range w : reachable w → covers_range (self w).
Proof.
  induction 1 as [d|w c _ _ IH].
  - apply covers_range_new.
  - by apply covers_range_onecmd.
Qed.

(** ** Save, then load *)

#[local] Instance str_inj : Inj (=) (=) Text.str.
Proof. intros n m. apply TextFacts.str_inj. Qed.

Lemma dict_set_fresh k v (d : list (string * Z)) :
  k ∉ d.*1 → dict_set k v d = (d ++ [(k, v)])%list.
Proof.
  induction d as [|[k' v'] d IH]; [done|]. cbn. intros Hk.
  rewrite not_elem_of_cons in Hk. destruct Hk as [Hne Hk].
  rewrite decide_False by done. by rewrite IH.
Qed.

Lemma dict_fold_nodup (acc members : list (string * Z)) :
  NoDup ((acc ++ members)%list.*1) →
  foldl (λ d kv, dict_set kv.1 kv.2 d) acc members = (acc ++ members)%list.
Proof.
  revert acc. induction members as [|[k v] members IH]; intros acc Hnd.
  - by rewrite app_nil_r.
  - cbn. rewrite dict_set_fresh.
    + rewrite IH; rewrite <- app_assoc; done.
    + rewrite fmap_app in Hnd. apply NoDup_app in Hnd as (_ & Hdisj & _).
      intros Hin. apply (Hdisj k Hin). cbn. by left.
Qed.

Lemma dumps_keys (l : list (Z * Z)) :
  ((λ kv, (Text.str kv.1, kv.2)) <$> l).*1 = Text.str <$> l.*1.
Proof. induction l as [|kv l IH]; [done|]. cbn. by rewrite IH. Qed.

(** A saved tally has no repeated key, so [json.loads] gives back its
    members as they are. *)
Lemma dict_of_dumps (t : gmap Z Z) :
  dict_of ((λ kv, (Text.str kv.1, kv.2)) <$> map_to_list t)
  = (λ kv, (Text.str kv.1, kv.2)) <$> map_to_list t.
Proof.
  unfold dict_of. rewrite dict_fold_nodup; [done|].
  rewrite app_nil_l, dumps_keys.
  apply (NoDup_fmap_2 _), NoDup_fst_map_to_list.
Qed.

Lemma int_key_dumps (t : gmap Z Z) :
  mapM int_key ((λ kv, (Text.str kv.1, kv.2)) <$> map_to_list t) = Some (map_to_list t).
Proof.
  apply mapM_fmap_Forall_Some, Forall_forall. intros [k v] _.
  unfold int_key. cbn. by rewrite TextFacts.int_str.
Qed.

Lemma lookup_update_nodup t items k :
  NoDup (items.*1) →
  update t items !! k =
    match (list_to_map items : gmap Z Z) !! k with
    | Some v => Some v
    | None => t !! k
    end.
Proof.
  revert t. induction items as [|[k' v'] items IH]; intros t Hnd.
  - cbn. by rewrite lookup_empty.
  - cbn in Hnd. apply NoDup_cons in Hnd as [Hk' Hnd].
    cbn [update foldl]. fold (update (<[k' := v']> t) items). rewrite (IH _ Hnd).
    cbn [list_to_map foldr fst snd]. destruct (decide (k = k')) as [->|Hne].
    + rewrite !lookup_insert_eq.
      by rewrite (not_elem_of_list_to_map_1 (M:=gmap Z) items k' Hk').
    + by rewrite !lookup_insert_ne.
Qed.

(** Storing the items of [t] over a map whose keys [t] already has gives
    [t]. *)
Lemma update_covered (t0 t : gmap Z Z) :
  dom t0 ⊆ dom t → update t0 (map_to_list t) = t.
Proof.
  intros Hsub. apply map_eq. intros k.
  rewrite lookup_update_nodup by apply NoDup_fst_map_to_list.
  rewrite list_to_map_to_list. destruct (t !! k) eqn:Hk; [done|].
  apply not_elem_of_dom. apply not_elem_of_dom in Hk. by intros ?%Hsub.
Qed.

(** C5: for every state of a session, stale keys outside the range
    included, a save to a writable, readable target followed by a load of
    that file in an engine with the same range (a fresh one set to that
    range, or any other) succeeds and leaves a tally equal to the saved
    one: every key with its exact count, the keys having gone through
    [str] on the way out and [int] on the way in. *)
Theorem save_load_round_trip w w' filename :
  reachable w →
  file_name filename ∉ unwritable (storage w) →
  file_name filename ∉ unreadable (storage w) →
  range_low (self w') = range_low (self w) →
  range_high (self w') = range_high (self w) →
  storage w' = storage (do_save filename w).2 →
  (do_save filename w).1 = inr false ∧
  files (storage (do_save filename w).2) !! (file_name filename)
    = Some (Object ((λ kv, (Text.str kv.1, kv.2)) <$> map_to_list (tracker (self w)))) ∧
  (do_load filename w').1 = inr false ∧
  tracker (self (do_load filename w').2) = tracker (self w).
Proof.
  intros Hreach Hw Hr Hlow Hhigh Hdisk.
  apply reachable_covers_range in Hreach. unfold covers_range in Hreach.
  rewrite do_save_run in Hdisk |- *. cbv zeta in Hdisk |- *.
  rewrite decide_False in Hdisk |- * by done. cbn [fst snd storage] in Hdisk |- *.
  split; [done|]. split; [by cbn; rewrite lookup_insert_eq|].
  rewrite do_load_run. cbv zeta. rewrite Hdisk. cbn [store unreadable files].
  rewrite decide_False by done. rewrite lookup_insert_eq.
  unfold load_result, json_dumps. cbv zeta.
  rewrite dict_of_dumps, int_key_dumps. cbn [fst snd self advance with_tracker tracker].
  split; [done|]. apply update_covered.
  unfold reset_app. cbn [tracker with_tracker].
  rewrite dom_ensure_keys, dom_empty_L, (left_id_L ∅ (∪)), Hlow, Hhigh. exact Hreach.
Qed.

Lemma save_load_round_trip_witness :
  reachable shrunk_range ∧
  tracker (self shrunk_range) !! 5 = Some 1 ∧
  range_high (self shrunk_range) = 4 ∧
  tracker (self (do_load "save.json" fresh_same_range).2) = tracker (self shrunk_range) ∧
  tracker (self (do_load "save.json" fresh_same_range).2) !! 5 = Some 1.
Proof.
  assert (Hreach : reachable shrunk_range).
  { unfold shrunk_range. do 2 (apply reachable_cmd; [done|]). apply reachable_new. }
  assert (Hw : file_name "save.json" ∉ unwritable (storage shrunk_range))
    by (change (file_name "save.json" ∉ (∅ : gset string)); apply not_elem_of_empty).
  assert (Hr : file_name "save.json" ∉ unreadable (storage shrunk_range))
    by (change (file_name "save.json" ∉ (∅ : gset string)); apply not_elem_of_empty).
  assert (Hlow : range_low (self fresh_same_range) = range_low (self shrunk_range))
    by (vm_compute; reflexivity).
  assert (Hhigh : range_high (self fresh_same_range) = range_high (self shrunk_range))
    by (vm_compute; reflexivity).
  assert (Hdisk : storage fresh_same_range = storage (do_save "save.json" shrunk_range).2)
    by (unfold fresh_same_range; rewrite _set_range_run; reflexivity).
  destruct (save_load_round_trip shrunk_range fresh_same_range "save.json"
              Hreach Hw Hr Hlow Hhigh Hdisk) as (_ & _ & _ & Ht).
  split; [exact Hreach|]. split; [vm_compute; reflexivity|].
  split; [vm_compute; reflexivity|]. split; [exact Ht|].
  rewrite Ht. vm_compute. reflexivity.
Defined.

(** ** Counts and the floor they do not have *)

Lemma nonneg_ensure_keys a t l :
  (∀ k c, t !! k = Some c → 0 ≤ c) →
  nonneg (with_tracker a (ensure_keys t l)).
Proof.
  intros Ht k c. cbn. rewrite lookup_ensure_keys.
  destruct (t !! k) as [c'|] eqn:Hk.
  - intros [= <-]. by eapply Ht.
  - destruct (decide (k ∈ l)); [|done]. by intros [= <-].
Qed.

Lemma nonneg_reset_app a : nonneg (reset_app a).
Proof. apply nonneg_ensure_keys. intros k c. by rewrite lookup_empty. Qed.

Lemma nonneg_set_range low high w :
  nonneg (self w) → nonneg (self (_set_range low high w).2).
Proof.
  intros Hnn. rewrite _set_range_run. cbn [snd self advance].
  intros k c. cbn. rewrite lookup_ensure_keys.
  destruct (tracker (self w) !! k) as [c'|] eqn:Hk.
  - intros [= <-]. by eapply Hnn.
  - destruct (decide (k ∈ _)); [|done]. by intros [= <-].
Qed.

Lemma nonneg_track_app a num amount :
  0 ≤ amount → nonneg a → nonneg (track_app a num amount).
Proof.
  intros Hamount Hnn. unfold track_app. destruct (decide (_ ≤ num ≤ _)); [|done].
  intros k c. cbn. destruct (decide (k = num)) as [->|Hne].
  - rewrite lookup_insert_eq. intros [= <-].
    destruct (tracker a !! num) as [c'|] eqn:Hk; cbn; [|lia].
    pose proof (Hnn _ _ Hk). lia.
  - rewrite lookup_insert_ne by done. apply Hnn.
Qed.

Lemma nonneg_track_all a amount nums :
  0 ≤ amount → nonneg a → nonneg (foldl (λ a num, track_app a num amount) a nums).
Proof.
  intros Hamount. revert a. induction nums as [|num nums IH]; intros a Hnn; [done|].
  cbn. by apply IH, nonneg_track_app.
Qed.

Lemma nonneg_new d : nonneg (self (new_App d)).
Proof.
  unfold new_App, __init__. run. rewrite _reset_tracker_run. apply nonneg_reset_app.
Qed.

Lemma nonneg_onecmd c w :
  ¬ lowers c → nonneg (self w) → nonneg (self (onecmd c w).2).
Proof.
  intros Hc Hnn. destruct c; cbn [onecmd]; cbn in Hc; try done.
  - rewrite do_i_run. destruct (batch_result_self 1 args w) as (_ & nums & ->).
    by apply nonneg_track_all.
  - unfold do_reset. rewrite bind_run, _reset_tracker_run. apply nonneg_reset_app.
  - destruct (do_rs_self args w) as (_ & [->|(low & high & ->)]); [done|].
    by apply nonneg_set_range.
  - by rewrite do_p_self.
  - by rewrite do_save_self.
Qed.

(** C8, as the claim states it, fails: one decrement of 1 in a new
    application is a reachable state whose count for 1 is -1. *)
Lemma negative_count_counterexample :
  let w := (onecmd (Cmd_d "1") (new_App no_disk)).2 in
  reachable w ∧ tracker (self w) !! 1 = Some (-1) ∧ ¬ nonneg (self w).
Proof.
  cbv zeta. split; [|split].
  - apply reachable_cmd; [done|]. apply reachable_new.
  - by vm_compute.
  - intros Hnn. specialize (Hnn 1 (-1)). cbv beta in Hnn.
    assert (0 ≤ -1) as Hle by (apply Hnn; by vm_compute). lia.
Qed.

(** C8, amended: every count is an integer that starts at 0; in every
    state reached by commands other than decrement and load all counts are
    at least 0; a decrement of an in-range value subtracts the amount from
    its count without any floor, so the count is negative as soon as the
    amount exceeds it. *)
Theorem counts_without_floor w :
  (reachable_by (λ c, ¬ lowers c) w → nonneg (self w)) ∧
  (∀ num amount,
     range_low (self w) ≤ num ≤ range_high (self w) →
     tracker (self (_dec num amount w).2) !! num
       = Some (default 0 (tracker (self w) !! num) - amount)).
Proof.
  split.
  - induction 1 as [d|w c Hc _ IH].
    + apply nonneg_new.
    + by apply nonneg_onecmd.
  - intros num amount Hin. unfold _dec. rewrite _track_run.
    rewrite decide_True by done. cbn. by rewrite lookup_insert_eq.
Qed.

Lemma counts_without_floor_witness :
  let w := (onecmd (Cmd_i "3 3") (new_App no_disk)).2 in
  reachable_by (λ c, ¬ lowers c) w ∧
  nonneg (self w) ∧
  range_low (self w) ≤ 3 ≤ range_high (self w) ∧
  tracker (self (_dec 3 5 w).2) !! 3 = Some (-3).
Proof.
  cbv zeta. set (w := (onecmd (Cmd_i "3 3") (new_App no_disk)).2).
  assert (Hreach : reachable_by (λ c, ¬ lowers c) w).
  { apply reachable_cmd; [by intros []|]. apply reachable_new. }
  assert (Hin : range_low (self w) ≤ 3 ≤ range_high (self w)) by (vm_compute; done).
  split; [exact Hreach|].
  split; [exact (proj1 (counts_without_floor w) Hreach)|].
  split; [exact Hin|].
  rewrite (proj2 (counts_without_floor w) 3 5 Hin). by vm_compute.
Defined.

(** ** Range membership *)

(** X1: [_in_range] answers True exactly for the values of the inclusive
    range; with [raise_exc] it raises [ValueError] for the others and
    otherwise answers False; it never changes the state. *)
Theorem in_range_spec num raise_exc w :
  _in_range num raise_exc w =
    if decide (within (self w) num) then (inr true, w)
    else if raise_exc then (inl ValueError, w)
    else (inr false, w).
Proof.
  unfold _in_range, within. run.
  destruct (decide (num ∈ _)) as [Hin|Hout]; rewrite elem_of_range in *.
  - rewrite decide_True by lia. done.
  - rewrite decide_False by lia. by destruct raise_exc.
Qed.

(** ** The range always has its keys *)

(** X2: in every state of a session, whatever the commands and the files
    loaded, each integer of the current range has an entry in the tally. *)
Theorem reachable_has_range_keys w k :
  reachable w → within (self w) k → is_Some (tracker (self w) !! k).
Proof.
  intros Hreach Hin. apply reachable_covers_range in Hreach.
  apply elem_of_dom, Hreach, elem_of_span. exact Hin.
Qed.

Lemma reachable_has_range_keys_witness :
  reachable shrunk_range ∧ within (self shrunk_range) 3 ∧
  is_Some (tracker (self shrunk_range) !! 3).
Proof.
  assert (Hreach : reachable shrunk_range).
  { unfold shrunk_range. do 2 (apply reachable_cmd; [done|]). apply reachable_new. }
  assert (Hin : within (self shrunk_range) 3) by (vm_compute; split; discriminate).
  split; [exact Hreach|]. split; [exact Hin|].
  exact (reachable_has_range_keys shrunk_range 3 Hreach Hin).
Defined.

(** ** Increment, then decrement *)

Lemma track_app_range a num amount :
  range_low (track_app a num amount) = range_low a ∧
  range_high (track_app a num amount) = range_high a.
Proof. unfold track_app. by destruct (decide _). Qed.

Lemma app_eq (a b : App) :
  range_low a = range_low b → range_high a = range_high b → tracker a = tracker b →
  a = b.
Proof. destruct a, b. cbn. by intros -> -> ->. Qed.

Lemma track_app_inverse a num amount :
  covers_range a → track_app (track_app a num amount) num (- amount) = a.
Proof.
  intros Hcov. unfold track_app.
  destruct (decide (range_low a ≤ num ≤ range_high a)) as [Hin|Hout].
  - cbn [range_low range_high with_tracker]. rewrite (decide_True _ _ Hin).
    apply app_eq; [done..|]. cbn. rewrite lookup_insert_eq, insert_insert_eq. cbn.
    assert (is_Some (tracker a !! num)) as [c Hc].
    { apply elem_of_dom, Hcov, elem_of_span. exact Hin. }
    rewrite Hc. cbn. replace (c + amount + - amount) with c by lia.
    by apply insert_id.
  - by rewrite (decide_False _ _ Hout).
Qed.

(** X3: in a state of a session, [_inc num amount] followed by
    [_dec num amount] gives back the application object as it was, range
    and every count: for a value of the range the count goes up and down by
    the amount, for any other value both calls only report it. *)
Theorem inc_dec_round_trip w num amount :
  reachable w →
  self (_dec num amount (_inc num amount w).2).2 = self w.
Proof.
  intros Hcov%reachable_covers_range. unfold _inc, _dec. rewrite !_track_run.
  destruct (decide (range_low (self w) ≤ num ≤ range_high (self w))) as [Hin|Hout].
  - cbn [snd self with_self with_tracker range_low range_high tracker].
    rewrite (decide_True _ _ Hin). cbn [snd self with_self].
    pose proof (track_app_inverse (self w) num amount Hcov) as Hinv.
    unfold track_app in Hinv. rewrite (decide_True _ _ Hin) in Hinv.
    cbn [range_low range_high with_tracker] in Hinv.
    rewrite (decide_True _ _ Hin) in Hinv. exact Hinv.
  - cbn [snd self advance]. by rewrite (decide_False _ _ Hout).
Qed.

Lemma inc_dec_round_trip_witness :
  reachable shrunk_range ∧
  tracker (self (_inc 2 5 shrunk_range).2) !! 2 = Some 6 ∧
  self (_dec 2 5 (_inc 2 5 shrunk_range).2).2 = self shrunk_range.
Proof.
  assert (Hreach : reachable shrunk_range).
  { unfold shrunk_range. do 2 (apply reachable_cmd; [done|]). apply reachable_new. }
  split; [exact Hreach|]. split; [by vm_compute|].
  exact (inc_dec_round_trip shrunk_range 2 5 Hreach).
Defined.

(** ** What a batch does *)

Lemma track_all_range a amount nums :
  range_low (foldl (λ a num, track_app a num amount) a nums) = range_low a ∧
  range_high (foldl (λ a num, track_app a num amount) a nums) = range_high a.
Proof.
  revert a. induction nums as [|num nums IH]; intros a; [done|]. cbn.
  destruct (IH (track_app a num amount)) as [-> ->]. apply track_app_range.
Qed.

Lemma occurrences_nil k : occurrences k [] = 0.
Proof. reflexivity. Qed.

Lemma occurrences_cons k num nums :
  occurrences k (num :: nums) =
    (if decide (num = k) then 1 else 0) + occurrences k nums.
Proof.
  unfold occurrences. rewrite filter_cons.
  destruct (decide (num = k)); cbn [length]; lia.
Qed.

Lemma occurrences_nonneg k nums : 0 ≤ occurrences k nums.
Proof. unfold occurrences. lia. Qed.

Lemma occurrences_absent k nums : k ∉ nums → occurrences k nums = 0.
Proof.
  induction nums as [|num nums IH]; [done|]. rewrite not_elem_of_cons.
  intros [Hne Hk]. rewrite occurrences_cons, (IH Hk). by rewrite decide_False.
Qed.

Lemma lookup_track_app a num amount k :
  tracker (track_app a num amount) !! k =
    if decide (within a num ∧ k = num)
    then Some (default 0 (tracker a !! k) + amount)
    else tracker a !! k.
Proof.
  unfold track_app, within. destruct (decide (range_low a ≤ num ≤ range_high a)) as [Hin|Hout].
  - cbn. destruct (decide (k = num)) as [->|Hne].
    + rewrite lookup_insert_eq. by rewrite decide_True.
    + rewrite lookup_insert_ne by done. rewrite decide_False; [done|]. by intros [_ ?].
  - rewrite decide_False; [done|]. by intros [? _].
Qed.

Lemma within_track_app a num amount k :
  within (track_app a num amount) k ↔ within a k.
Proof. unfold within. by destruct (track_app_range a num amount) as [-> ->]. Qed.

Lemma lookup_track_all a amount nums k :
  tracker (foldl (λ a num, track_app a num amount) a nums) !! k =
    if decide (within a k ∧ k ∈ nums)
    then Some (default 0 (tracker a !! k) + amount * occurrences k nums)
    else tracker a !! k.
Proof.
  revert a. induction nums as [|num nums IH]; intros a.
  - cbn. rewrite decide_False; [done|]. intros [_ Hin]. by apply not_elem_of_nil in Hin.
  - cbn [foldl]. rewrite IH, lookup_track_app, occurrences_cons.
    pose proof (within_track_app a num amount k) as Hw.
    pose proof (elem_of_cons nums k num) as Hcons.
    destruct (decide (k ∈ nums)) as [Hin|Hout].
    + repeat case_decide; destruct_and?; subst; cbn;
        try (f_equal; lia); try done; exfalso; intuition congruence.
    + rewrite (occurrences_absent _ _ Hout).
      repeat case_decide; destruct_and?; subst; cbn;
        try (f_equal; lia); try done; exfalso; intuition congruence.
Qed.

Lemma track_lines_filter a amount nums :
  track_lines a amount nums =
    (λ num, Err (_get_range_err num (range_low a) (range_high a)))
      <$> filter (λ num, ¬ within a num) nums.
Proof.
  revert a. induction nums as [|num nums IH]; intros a; [done|].
  cbn [track_lines]. rewrite IH. destruct (track_app_range a num amount) as [-> ->].
  assert (Hfilter :
    filter (λ n, ¬ within (track_app a num amount) n) nums
    = filter (λ n, ¬ within a n) nums).
  { apply list_filter_iff. intros n. by rewrite within_track_app. }
  rewrite Hfilter, filter_cons.
  destruct (decide (range_low a ≤ num ≤ range_high a)) as [Hin|Hout].
  - rewrite decide_False; [done|]. intros Hn. by apply Hn.
  - by rewrite decide_True.
Qed.

Lemma parse_strip toks :
  mapM (λ arg, Text.int (Text.strip arg)) toks = mapM Text.int toks.
Proof. apply mapM_ext. intros tok. apply TextFacts.int_strip. Qed.

(** X4: when every token of the argument list is an integer, [do_i] and
    [do_d] return False and keep the range; the count of every value of
    the range goes up (for [do_d]: down) by the number of times the value
    occurs in the list, a missing entry counting as 0; every other entry of
    the tally is as before. *)
Theorem batch_counts args nums w k :
  mapM Text.int (Text.split args) = Some nums →
  let after_i := (do_i args w).2 in
  let after_d := (do_d args w).2 in
  (do_i args w).1 = inr false ∧ (do_d args w).1 = inr false ∧
  range_low (self after_i) = range_low (self w) ∧
  range_high (self after_i) = range_high (self w) ∧
  range_low (self after_d) = range_low (self w) ∧
  range_high (self after_d) = range_high (self w) ∧
  tracker (self after_i) !! k =
    (if decide (within (self w) k ∧ k ∈ nums)
     then Some (default 0 (tracker (self w) !! k) + occurrences k nums)
     else tracker (self w) !! k) ∧
  tracker (self after_d) !! k =
    (if decide (within (self w) k ∧ k ∈ nums)
     then Some (default 0 (tracker (self w) !! k) - occurrences k nums)
     else tracker (self w) !! k).
Proof.
  intros Hparse. cbv zeta. rewrite do_i_run, do_d_run. unfold batch_result.
  rewrite parse_strip, Hparse. cbn [fst snd self advance].
  destruct (track_all_range (self w) 1 nums) as [-> ->].
  destruct (track_all_range (self w) (-1) nums) as [-> ->].
  rewrite !lookup_track_all. repeat split.
  all: case_decide; [|done]; f_equal; lia.
Qed.

Lemma batch_counts_witness :
  mapM Text.int (Text.split "2 9 2 3") = Some [2; 9; 2; 3] ∧
  tracker (self (do_i "2 9 2 3" (new_App no_disk)).2) !! 2 = Some 2 ∧
  tracker (self (do_i "2 9 2 3" (new_App no_disk)).2) !! 2 =
    (if decide (within (self (new_App no_disk)) 2 ∧ 2 ∈ [2; 9; 2; 3])
     then Some (default 0 (tracker (self (new_App no_disk)) !! 2)
                + occurrences 2 [2; 9; 2; 3])
     else tracker (self (new_App no_disk)) !! 2).
Proof.
  assert (Hparse : mapM Text.int (Text.split "2 9 2 3") = Some [2; 9; 2; 3])
    by reflexivity.
  split; [exact Hparse|]. split; [by vm_compute|].
  destruct (batch_counts "2 9 2 3" [2; 9; 2; 3] (new_App no_disk) 2 Hparse)
    as (_ & _ & _ & _ & _ & _ & Hi & _).
  exact Hi.
Defined.

(** X5: a batch whose tokens are all integers writes one error line for
    each value outside the range, in the order of the list and with the
    bounds in force, and goes on with the values that follow; an empty
    list gives the line "Nothing to do"; nothing else is written and the
    disk is not touched. *)
Theorem batch_reports args (nums : list Z) w :
  mapM Text.int (Text.split args) = Some nums →
  let lines : list line :=
    ((if decide (nums = []) then [Out "Nothing to do"] else [])
     ++ ((λ num, Err (_get_range_err num (range_low (self w)) (range_high (self w))))
           <$> filter (λ num, ¬ within (self w) num) nums))%list in
  console (do_i args w).2 = (console w ++ lines)%list ∧
  console (do_d args w).2 = (console w ++ lines)%list ∧
  storage (do_i args w).2 = storage w ∧
  storage (do_d args w).2 = storage w.
Proof.
  intros Hparse. cbv zeta. rewrite do_i_run, do_d_run. unfold batch_result.
  rewrite parse_strip, Hparse. cbn [snd console storage advance].
  by rewrite !track_lines_filter.
Qed.

Lemma batch_reports_witness :
  mapM Text.int (Text.split "7 2 0") = Some [7; 2; 0] ∧
  console (do_i "7 2 0" (new_App no_disk)).2 =
    (console (new_App no_disk)
     ++ [Err "Number 7 no in range [1, 6]"; Err "Number 0 no in range [1, 6]"])%list ∧
  tracker (self (do_i "7 2 0" (new_App no_disk)).2) !! 2 = Some 1 ∧
  console (do_i "7 2 0" (new_App no_disk)).2 =
    (console (new_App no_disk)
     ++ ((if decide ([7; 2; 0] = []) then [Out "Nothing to do"] else [])
         ++ ((λ num, Err (_get_range_err num (range_low (self (new_App no_disk)))
                            (range_high (self (new_App no_disk)))))
               <$> filter (λ num, ¬ within (self (new_App no_disk)) num) [7; 2; 0])))%list.
Proof.
  assert (Hparse : mapM Text.int (Text.split "7 2 0") = Some [7; 2; 0]) by reflexivity.
  split; [exact Hparse|]. split; [by vm_compute|]. split; [by vm_compute|].
  exact (proj1 (batch_reports "7 2 0" [7; 2; 0] (new_App no_disk) Hparse)).
Defined.

Lemma track_all_inverse a nums :
  covers_range a →
  foldl (λ a num, track_app a num (-1)) (foldl (λ a num, track_app a num 1) a nums) nums = a.
Proof.
  intros Hcov.
  destruct (track_all_range (foldl (λ a num, track_app a num 1) a nums) (-1) nums)
    as [Hlow Hhigh].
  destruct (track_all_range a 1 nums) as [Hlow1 Hhigh1].
  apply app_eq; [congruence..|]. apply map_eq. intros k.
  rewrite !lookup_track_all.
  assert (Hw : within (foldl (λ a num, track_app a num 1) a nums) k ↔ within a k).
  { unfold within. by rewrite Hlow1, Hhigh1. }
  case_decide as H1; case_decide as H2; try (exfalso; intuition congruence); [|done].
  destruct H2 as [Hin _].
  assert (is_Some (tracker a !! k)) as [c Hc].
  { apply elem_of_dom, Hcov, elem_of_span. exact Hin. }
  rewrite Hc. cbn. f_equal. lia.
Qed.

(** X6: in a state of a session, a batch increment followed by a batch
    decrement with the same argument list gives back the application
    object as it was, whether the list parses or not. *)
Theorem increment_decrement_batch args w :
  reachable w → self (do_d args (do_i args w).2).2 = self w.
Proof.
  intros Hcov%reachable_covers_range. rewrite do_d_run, do_i_run. unfold batch_result.
  destruct (mapM _ _) as [nums|]; cbn [snd self advance]; [|done].
  by apply track_all_inverse.
Qed.

Lemma increment_decrement_batch_witness :
  reachable shrunk_range ∧
  tracker (self (do_i "1 1 5 9" shrunk_range).2) !! 1 = Some 3 ∧
  self (do_d "1 1 5 9" (do_i "1 1 5 9" shrunk_range).2).2 = self shrunk_range.
Proof.
  assert (Hreach : reachable shrunk_range).
  { unfold shrunk_range. do 2 (apply reachable_cmd; [done|]). apply reachable_new. }
  split; [exact Hreach|]. split; [by vm_compute|].
  exact (increment_decrement_batch "1 1 5 9" shrunk_range Hreach).
Defined.

(** ** The range command *)



(** ** Empty and repeated ranges *)

Lemma ensure_keys_covered (t : gmap Z Z) l :
  list_to_set l ⊆ dom t → ensure_keys t l = t.
Proof.
  intros Hsub. apply map_eq. intros k. rewrite lookup_ensure_keys.
  destruct (t !! k) eqn:Hk; [done|]. rewrite decide_False; [done|].
  intros Hin. apply not_elem_of_dom in Hk. apply Hk, Hsub.
  by apply elem_of_list_to_set.
Qed.

(** X8: [_set_range low high] with high < low adds no key and leaves
    every count as it was; from then on no value is within the range, so
    every [_track] is refused and the tally stays what it was. *)
Theorem empty_range_refuses_all w low high num amount :
  high < low →
  let w' := (_set_range low high w).2 in
  tracker (self w') = tracker (self w) ∧
  ¬ within (self w') num ∧
  self (_track num amount w').2 = self w'.
Proof.
  intros Hempty. cbv zeta. rewrite _set_range_run. cbn [snd self advance tracker].
  unfold range at 1. rewrite seqZ_nil by lia. cbn [ensure_keys foldl].
  split; [done|]. unfold within. cbn [range_low range_high].
  split; [lia|]. rewrite _track_run. cbn [self advance range_low range_high].
  rewrite decide_False by lia. done.
Qed.

Lemma empty_range_refuses_all_witness :
  4 < 5 ∧
  tracker (self (_set_range 5 4 (new_App no_disk)).2) = tracker (self (new_App no_disk)) ∧
  self (_track 5 1 (_set_range 5 4 (new_App no_disk)).2).2
    = self (_set_range 5 4 (new_App no_disk)).2.
Proof.
  assert (H : 4 < 5) by lia. split; [exact H|].
  destruct (empty_range_refuses_all (new_App no_disk) 5 4 5 1 H) as (Ht & _ & Hs).
  split; [exact Ht|exact Hs].
Defined.

(** X9: [_set_range] changes no count when the tally already has an entry
    for every integer of the new range; so a second call with the same
    bounds changes nothing in the application object, and in a state of a
    session a call with the current bounds changes nothing either. *)
Theorem set_range_covered w low high :
  (span low high ⊆ dom (tracker (self w)) →
   tracker (self (_set_range low high w).2) = tracker (self w)) ∧
  self (_set_range low high (_set_range low high w).2).2
    = self (_set_range low high w).2 ∧
  (reachable w →
   self (_set_range (range_low (self w)) (range_high (self w)) w).2 = self w).
Proof.
  split; [|split].
  - intros Hsub. rewrite _set_range_run. cbn. by apply ensure_keys_covered.
  - rewrite !_set_range_run. cbn [snd self advance tracker]. f_equal.
    apply ensure_keys_covered. rewrite dom_ensure_keys. apply union_subseteq_r.
  - intros Hcov%reachable_covers_range. rewrite _set_range_run. cbn [snd self advance].
    apply app_eq; [done..|]. cbn. by apply ensure_keys_covered.
Qed.

Lemma set_range_covered_witness :
  span 2 3 ⊆ dom (tracker (self shrunk_range)) ∧
  tracker (self (_set_range 2 3 shrunk_range).2) = tracker (self shrunk_range) ∧
  reachable shrunk_range ∧
  self (_set_range (range_low (self shrunk_range)) (range_high (self shrunk_range))
          shrunk_range).2 = self shrunk_range.
Proof.
  assert (Hreach : reachable shrunk_range).
  { unfold shrunk_range. do 2 (apply reachable_cmd; [done|]). apply reachable_new. }
  assert (Hsub : span 2 3 ⊆ dom (tracker (self shrunk_range))).
  { intros k Hk. apply elem_of_span in Hk.
    apply (reachable_covers_range _ Hreach), elem_of_span.
    change (1 ≤ k ≤ 4). lia. }
  split; [exact Hsub|].
  split; [exact (proj1 (set_range_covered shrunk_range 2 3) Hsub)|].
  split; [exact Hreach|].
  exact (proj2 (proj2 (set_range_covered shrunk_range 2 3)) Hreach).
Defined.

(** ** Reset *)


Lemma do_reset_run w :
  do_reset w =
    (inr false,
     advance w (reset_app (self w)) [range_msg (range_low (self w)) (range_high (self w))]).
Proof. unfold do_reset. rewrite bind_run, _reset_tracker_run. reflexivity. Qed.



(** ** Statistics never touch the state *)

Lemma do_p_outcome w :
  ((do_p w).1 = inr false ∨ (do_p w).1 = inl ZeroDivisionError) ∧
  storage (do_p w).2 = storage w.
Proof. rewrite do_p_run. cbv zeta. repeat destruct (decide _); split; auto. Qed.





(** ** Which commands end the session *)

Lemma batch_result_frame amount args w :
  (batch_result amount args w).1 = inr false ∧
  storage (batch_result amount args w).2 = storage w.
Proof. unfold batch_result. by destruct (mapM _ _). Qed.

Lemma do_rs_storage args w : storage (do_rs args w).2 = storage w.
Proof.
  destruct (do_rs_self args w) as (_ & [->|(low & high & ->)]); [done|].
  by rewrite _set_range_run.
Qed.




Lemma onecmd_outcome c w :
  (onecmd c w).1 = inr false ∨
  ∃ e, (onecmd c w).1 = inl e ∧ (∀ code, e = SystemExit code → code = 0).
Proof.
  destruct c; cbn [onecmd].
  - left. rewrite do_i_run. apply batch_result_frame.
  - left. rewrite do_d_run. apply batch_result_frame.
  - left. by rewrite do_reset_run.
  - left. apply do_rs_self.
  - destruct (do_p_outcome w) as ([->| ->] & _); [by left|].
    right. eexists. split; [done|]. by intros code [=].
  - rewrite do_save_run. cbv zeta. destruct (decide _); [|by left].
    right. eexists. split; [done|]. by intros code [=].
  - rewrite do_load_run. cbv zeta.
    destruct (decide _); [right; eexists; split; [done|]; by intros code [=]|].
    destruct (files _ !! _) as [doc|];
      [|right; eexists; split; [done|]; by intros code [=]].
    unfold load_result. cbv zeta.
    destruct doc as [| |members];
      [right; eexists; split; [done|]; by intros code [=]..|].
    destruct (mapM _ _); [by left|].
    right; eexists; split; [done|]; by intros code [=].
  - right. eexists. split; [done|]. by intros code [= <-].
  - right. eexists. split; [done|]. by intros code [= <-].
  - right. eexists. split; [done|]. by intros code [= <-].
  - by left.
Qed.

(** X14: the command loop never returns normally: every session ends with
    an exception, and when that is [SystemExit] its status is 0.  [exit]
    and [quit] end the session at once and leave the state as it is, the
    commands after them are not run; the end of the input does the same
    after printing an empty line. *)
Theorem session_ends_by_exception input rest w :
  (∃ e w', cmdloop input w = (inl e, w') ∧ (∀ code, e = SystemExit code → code = 0)) ∧
  cmdloop (Cmd_exit :: rest) w = (inl (SystemExit 0), w) ∧
  cmdloop (Cmd_quit :: rest) w = (inl (SystemExit 0), w) ∧
  cmdloop (Cmd_EOF :: rest) w = (inl (SystemExit 0), advance w (self w) [Out EmptyString]) ∧
  cmdloop [] w = (inl (SystemExit 0), advance w (self w) [Out EmptyString]).
Proof.
  split; [|by destruct w].
  revert w. induction input as [|c input IH]; intros w.
  - eexists _, _. split; [by destruct w|]. by intros code [= <-].
  - cbn [cmdloop]. rewrite bind_run.
    destruct (onecmd_outcome c w) as [Hres|(e & Hres & Hcode)];
      destruct (onecmd c w) as [r w']; cbn in Hres; subst r.
    + apply IH.
    + by eexists _, _.
Qed.

Lemma session_ends_by_exception_witness :
  cmdloop [Cmd_i "1"; Cmd_quit; Cmd_i "2"] (new_App no_disk)
    = (inl (SystemExit 0), (onecmd (Cmd_i "1") (new_App no_disk)).2) ∧
  ∃ e w', cmdloop [Cmd_p; Cmd_load "none"] stale_empty_range = (inl e, w') ∧
          (∀ code, e = SystemExit code → code = 0).
Proof.
  split.
  - rewrite (cmdloop_continue (Cmd_i "1") _ _ (onecmd (Cmd_i "1") (new_App no_disk)).2)
      by (by vm_compute).
    exact (proj1 (proj2 (proj2
             (session_ends_by_exception [] [Cmd_i "2"]
                (onecmd (Cmd_i "1") (new_App no_disk)).2)))).
  - exact (proj1 (session_ends_by_exception [Cmd_p; Cmd_load "none"] [] stale_empty_range)).
Defined.

(** ** What a command leaves alone *)

Lemma do_load_frame filename w :
  storage (do_load filename w).2 = storage w ∧
  range_low (self (do_load filename w).2) = range_low (self w) ∧
  range_high (self (do_load filename w).2) = range_high (self w).
Proof.
  rewrite do_load_run. cbv zeta. destruct (decide _); [done|].
  destruct (files _ !! _) as [doc|]; [|done]. unfold load_result. cbv zeta.
  destruct doc as [| |members]; [done..|]. by destruct (mapM _ _).
Qed.

Lemma batch_result_range amount args w :
  range_low (self (batch_result amount args w).2) = range_low (self w) ∧
  range_high (self (batch_result amount args w).2) = range_high (self w).
Proof.
  destruct (batch_result_self amount args w) as (_ & nums & ->).
  apply track_all_range.
Qed.

(** X15: only the range command changes the bounds, and only the save
    command changes the disk: after any other command, whether it returns
    or raises, the bounds (resp. the files and their permissions) are what
    they were. *)
Theorem commands_frame c w :
  ((∀ args, c ≠ Cmd_rs args) →
   range_low (self (onecmd c w).2) = range_low (self w) ∧
   range_high (self (onecmd c w).2) = range_high (self w)) ∧
  ((∀ filename, c ≠ Cmd_save filename) → storage (onecmd c w).2 = storage w).
Proof.
  split.
  - intros Hc. destruct c; cbn [onecmd].
    + rewrite do_i_run. apply batch_result_range.
    + rewrite do_d_run. apply batch_result_range.
    + by rewrite do_reset_run.
    + by destruct (Hc args).
    + by rewrite do_p_self.
    + by rewrite do_save_self.
    + apply do_load_frame.
    + done.
    + done.
    + done.
    + done.
  - intros Hc. destruct c; cbn [onecmd].
    + rewrite do_i_run. apply batch_result_frame.
    + rewrite do_d_run. apply batch_result_frame.
    + by rewrite do_reset_run.
    + apply do_rs_storage.
    + apply do_p_outcome.
    + by destruct (Hc filename).
    + apply do_load_frame.
    + done.
    + done.
    + done.
    + done.
Qed.

Lemma commands_frame_witness :
  (∀ args, Cmd_load "save.json" ≠ Cmd_rs args) ∧
  (∀ filename, Cmd_load "save.json" ≠ Cmd_save filename) ∧
  range_high (self (onecmd (Cmd_load "save.json") (new_App garbled_disk)).2) = 6 ∧
  storage (onecmd (Cmd_load "save.json") (new_App garbled_disk)).2 = garbled_disk.
Proof.
  assert (H1 : ∀ args, Cmd_load "save.json" ≠ Cmd_rs args) by (intros args; discriminate).
  assert (H2 : ∀ filename, Cmd_load "save.json" ≠ Cmd_save filename)
    by (intros filename; discriminate).
  split; [exact H1|]. split; [exact H2|].
  destruct (commands_frame (Cmd_load "save.json") (new_App garbled_disk)) as [Hr Hs].
  split; [exact (proj2 (Hr H1))|exact (Hs H2)].
Defined.

Lemma dom_track_all a amount nums :
  dom (tracker a) ⊆ dom (tracker (foldl (λ a num, track_app a num amount) a nums)).
Proof.
  intros k. rewrite !elem_of_dom, lookup_track_all. intros Hk.
  case_decide; [by eexists|done].
Qed.

(** X16: an entry of the tally disappears only through a reset or a load:
    after any other command every key that was present is still present. *)
Theorem keys_stay c w :
  c ≠ Cmd_reset → (∀ filename, c ≠ Cmd_load filename) →
  dom (tracker (self w)) ⊆ dom (tracker (self (onecmd c w).2)).
Proof.
  intros Hreset Hload. destruct c; cbn [onecmd]; try done.
  - rewrite do_i_run. destruct (batch_result_self 1 args w) as (_ & nums & ->).
    apply dom_track_all.
  - rewrite do_d_run. destruct (batch_result_self (-1) args w) as (_ & nums & ->).
    apply dom_track_all.
  - destruct (do_rs_self args w) as (_ & [->|(low & high & ->)]); [done|].
    rewrite _set_range_run. cbn. rewrite dom_ensure_keys. apply union_subseteq_l.
  - by rewrite do_p_self.
  - by rewrite do_save_self.
  - by destruct (Hload filename).
Qed.

Lemma keys_stay_witness :
  Cmd_rs "8 9" ≠ Cmd_reset ∧ (∀ filename, Cmd_rs "8 9" ≠ Cmd_load filename) ∧
  dom (tracker (self shrunk_range))
    ⊆ dom (tracker (self (onecmd (Cmd_rs "8 9") shrunk_range).2)).
Proof.
  assert (H1 : Cmd_rs "8 9" ≠ Cmd_reset) by discriminate.
  assert (H2 : ∀ filename, Cmd_rs "8 9" ≠ Cmd_load filename)
    by (intros filename; discriminate).
  split; [exact H1|]. split; [exact H2|].
  exact (keys_stay (Cmd_rs "8 9") shrunk_range H1 H2).
Defined.

(** ** Saving *)



(** ** File names *)

Lemma lstrip_all_space s : all_space s = true → Text.lstrip s = EmptyString.
Proof.
  induction s as [|c r IH]; [done|]. cbn. intros [Hc Hr]%andb_prop.
  rewrite Hc. by apply IH.
Qed.

Lemma file_name_strip s : file_name (Text.strip s) = file_name s.
Proof. unfold file_name. by rewrite TextFacts.strip_strip. Qed.

(** X18: the name [do_save] and [do_load] use is never empty: a name made
    of white space only, the empty one included, stands for save.json, and
    white space around a name is dropped, so that both commands reach the
    same file for the name with and without it. *)
Theorem file_name_default s w :
  file_name s ≠ EmptyString ∧
  (all_space s = true → file_name s = "save.json") ∧
  file_name (Text.strip s) = file_name s ∧
  do_save (Text.strip s) w = do_save s w ∧
  do_load (Text.strip s) w = do_load s w.
Proof.
  split; [|split; [|split; [|split]]].
  - unfold file_name. by destruct (Text.strip s).
  - intros Hs. unfold file_name, Text.strip. by rewrite (lstrip_all_space _ Hs).
  - apply file_name_strip.
  - unfold do_save. cbv zeta. by rewrite file_name_strip.
  - unfold do_load. cbv zeta. by rewrite file_name_strip.
Qed.

Lemma file_name_default_witness :
  all_space "   " = true ∧ file_name "   " = "save.json" ∧
  file_name " tally.json " = "tally.json".
Proof.
  assert (Hs : all_space "   " = true) by reflexivity.
  split; [exact Hs|].
  split; [exact (proj1 (proj2 (file_name_default "   " (new_App no_disk))) Hs)|].
  reflexivity.
Defined.

(** ** Loading *)

Lemma reset_app_range a b :
  range_low a = range_low b → range_high a = range_high b → reset_app a = reset_app b.
Proof. unfold reset_app, with_tracker. by intros -> ->. Qed.

(** X19: what a load leaves in the application object depends on the
    file and on the bounds only, not on the tally held before: two engines
    with the same bounds that open the same file end with the same result
    and the same application object, whether the content parses or not. *)
Theorem load_forgets_tally filename w1 w2 :
  range_low (self w1) = range_low (self w2) →
  range_high (self w1) = range_high (self w2) →
  storage w1 = storage w2 →
  file_name filename ∉ unreadable (storage w1) →
  is_Some (files (storage w1) !! (file_name filename)) →
  (do_load filename w1).1 = (do_load filename w2).1 ∧
  self (do_load filename w1).2 = self (do_load filename w2).2.
Proof.
  intros Hlow Hhigh Hdisk Hr [doc Hdoc]. rewrite !do_load_run. cbv zeta.
  rewrite <- Hdisk, !(decide_False _ _ Hr), !Hdoc. unfold load_result. cbv zeta.
  rewrite (reset_app_range _ _ Hlow Hhigh).
  destruct doc as [| |members]; [done..|]. by destruct (mapM _ _).
Qed.

Lemma load_forgets_tally_witness :
  let d := storage (do_save "save.json" shrunk_range).2 in
  let w1 := (_set_range 1 4 (new_App d)).2 in
  let w2 := (onecmd (Cmd_i "2 2 2") w1).2 in
  tracker (self w1) !! 2 = Some 0 ∧ tracker (self w2) !! 2 = Some 3 ∧
  self (do_load "save.json" w1).2 = self (do_load "save.json" w2).2.
Proof.
  cbv zeta.
  set (d := storage (do_save "save.json" shrunk_range).2).
  set (w1 := (_set_range 1 4 (new_App d)).2).
  set (w2 := (onecmd (Cmd_i "2 2 2") w1).2).
  assert (Hlow : range_low (self w1) = range_low (self w2)) by (vm_compute; reflexivity).
  assert (Hhigh : range_high (self w1) = range_high (self w2)) by (vm_compute; reflexivity).
  assert (Hdisk : storage w1 = storage w2) by (vm_compute; reflexivity).
  assert (Hr : file_name "save.json" ∉ unreadable (storage w1))
    by (change (file_name "save.json" ∉ (∅ : gset string)); apply not_elem_of_empty).
  assert (Hdoc : is_Some (files (storage w1) !! (file_name "save.json")))
    by (vm_compute; eauto).
  split; [by vm_compute|]. split; [by vm_compute|].
  exact (proj2 (load_forgets_tally "save.json" w1 w2 Hlow Hhigh Hdisk Hr Hdoc)).
Defined.




